(** * The prime sieve, the factorizer and the divisor functions of [primality.py]

    A shallow embedding of the class [Primes] and of the decorator
    [multiplicative], followed by the properties stated about them.

    Python integers are unbounded, so they are [Z].  The three class variables
    of [Primes] are shared by every instance and every call; they are threaded
    through the functions as one record.  Loops that Python writes with
    [while] take a [fuel] argument where their length is not evident from
    their arguments; a run that exhausts it is [OutOfFuel], and every statement
    that says a call returns is proved for all sufficiently large fuel. *)

From Stdlib Require Import ZArith Znumtheory Lia List Bool.
From Stdlib Require SpecFloat.
From stdpp Require Import base decidable option list gmap numbers sorting.

Local Open Scope Z_scope.

(** ** Outcomes of a call *)

Inductive exn := TypeError | ValueError | ZeroDivisionError | OverflowError.

Inductive outcome (A : Type) : Type :=
| Done (a : A)
| Raise (e : exn)
| OutOfFuel.
Arguments Done {A} a.
Arguments Raise {A} e.
Arguments OutOfFuel {A}.

#[export] Instance outcome_ret : MRet outcome := fun A a => Done a.
#[export] Instance outcome_bind : MBind outcome := fun A B k c =>
  match c with
  | Done a => k a
  | Raise e => Raise e
  | OutOfFuel => OutOfFuel
  end.

#[export] Instance outcome_fmap : FMap outcome := fun A B f c =>
  match c with
  | Done a => Done (f a)
  | Raise e => Raise e
  | OutOfFuel => OutOfFuel
  end.

(** ** The sieve state *)

(** [odd_primes_list], [small_primes_set] and [last_tested], the class
    variables of [Primes]. *)
Record Primes := mkPrimes {
  odd_primes_list : list Z;
  small_primes_set : gset Z;
  last_tested : Z
}.

(** The values the class body assigns. *)
Definition initial : Primes := mkPrimes [3; 5; 7] {[2; 3; 5; 7]} 9.

(** One turn of the [while] loop of [sieve]: the next odd candidate is tested
    against every prime of the list, and appended when none divides it. *)
Definition sieve_body (st : Primes) : Primes :=
  let c := last_tested st + 2 in
  let is_prime := negb (existsb (fun p => c mod p =? 0) (odd_primes_list st)) in
  if is_prime
  then mkPrimes (odd_primes_list st ++ [c]) (small_primes_set st ∪ {[c]}) c
  else mkPrimes (odd_primes_list st) (small_primes_set st) c.

(** [while stop > cls.last_tested: ...] *)
Fixpoint sieve_while (fuel : nat) (stop : Z) (st : Primes) : Primes :=
  match fuel with
  | O => st
  | S fuel' =>
      if last_tested st <? stop
      then sieve_while fuel' stop (sieve_body st)
      else st
  end.

(** [Primes.sieve].  The loop adds 2 to [last_tested] at every turn, so
    [stop - last_tested] turns are more than it can take
    (lemma [sieve_while_exit]). *)
Definition sieve (stop : Z) (st : Primes) : Primes :=
  if stop =? 0 then st
  else
    let stop := Z.abs stop in
    sieve_while (Z.to_nat (stop - last_tested st)) stop st.

(** The states the program can be in: the class variables are written by
    [sieve] only. *)
Inductive reachable : Primes -> Prop :=
| reach_initial : reachable initial
| reach_sieve stop st : reachable st -> reachable (sieve stop st).

(** ** The primality oracle *)

(** [True], [False] or [Maybe]. *)
Inductive ternary := Bool (b : bool) | Maybe.

(** [Primes.is_irreducible]; [allow_sieve] is the argument [sieve]. *)
Definition is_irreducible (n : Z) (allow_sieve : bool) (st : Primes)
  : ternary * Primes :=
  let n := Z.abs n in
  if allow_sieve then
    let st := sieve n st in
    (Bool (bool_decide (n ∈ small_primes_set st)), st)
  else if bool_decide (n ∈ small_primes_set st) then (Bool true, st)
  else if n <=? last_tested st then (Bool false, st)
  else if n mod 2 =? 0 then (Bool false, st)
  else if existsb (fun p => n mod p =? 0) (odd_primes_list st)
       then (Bool false, st)
  else if n <? last_tested st * last_tested st then (Bool true, st)
  else (Maybe, st).

(** [Primes.is_prime] *)
Definition is_prime (n : Z) (allow_sieve : bool) (st : Primes)
  : ternary * Primes :=
  if n =? 0 then (Bool true, st) else is_irreducible n allow_sieve st.

(** [Primes.is_unit] *)
Definition is_unit (n : Z) : bool := bool_decide (n ∈ ({[-1; 1]} : gset Z)).

(** [Primes.is_composite]; the dictionary [f] is the [match]. *)
Definition is_composite (n : Z) (allow_sieve : bool) (st : Primes)
  : ternary * Primes :=
  if is_unit n then (Bool false, st)
  else
    let '(r, st) := is_prime n allow_sieve st in
    (match r with
     | Bool true => Bool false
     | Bool false => Bool true
     | Maybe => Maybe
     end, st).

(** ** The factorizer *)

(** [while n % p == 0: e += 1; n //= p].  Python's [%] and [//] round towards
    minus infinity, as [Z.modulo] and [Z.div] do. *)
Fixpoint extract_power_while (fuel : nat) (e n p : Z) : outcome (Z * Z) :=
  if n mod p =? 0 then
    match fuel with
    | O => OutOfFuel
    | S fuel' => extract_power_while fuel' (e + 1) (n / p) p
    end
  else Done (e, n).

(** [Primes.extract_power].  Division by [p = 0] raises.  For [n = 0] or
    [p] a unit the loop of the source never ends; otherwise [|n|] is at least
    halved at every turn, so [log2 |n|] turns are enough
    (lemma [extract_power_while_spec]). *)
Definition extract_power (n p : Z) : outcome (Z * Z) :=
  if p =? 0 then Raise ZeroDivisionError
  else extract_power_while (Z.to_nat (Z.log2 (Z.abs n))) 0 n p.

(** An entry of the list [factor_slow] returns: the leading unit, or a pair
    [[p, e]]. *)
Inductive factor := Unit (u : Z) | Power (p e : Z).

(** What [factor_slow] returns: the integer [0], or a list. *)
Inductive factorization := Zero | Factors (factors : list factor).

(** [e, n = self.extract_power(n, p)] followed by
    [if e > 0: factors.append([p,e])]. *)
Definition strip_prime (p n : Z) (factors : list factor)
  : outcome (Z * list factor) :=
  '(e, n) ← extract_power n p;
  mret (n, if 0 <? e then factors ++ [Power p e] else factors).

(** [for p in self.odd_primes_list: ...].  The flag is [true] when the loop was
    left by [return factors]. *)
Fixpoint for_odd_primes (ps : list Z) (n : Z) (factors : list factor)
  : outcome (bool * Z * list factor) :=
  match ps with
  | [] => mret (false, n, factors)
  | p :: ps' =>
      '(n, factors) ← strip_prime p n factors;
      if n =? 1 then mret (true, n, factors)
      else for_odd_primes ps' n factors
  end.

(** [while m < len(self.odd_primes_list): p = self.odd_primes_list[m]; m += 1; ...]
    with [ps] the slice of the list from index [m] on; the loop is left by
    [break] when [n == 1]. *)
Fixpoint while_new_primes (ps : list Z) (m : nat) (n : Z)
    (factors : list factor) : outcome (nat * Z * list factor) :=
  match ps with
  | [] => mret (m, n, factors)
  | p :: ps' =>
      let m := S m in
      '(n, factors) ← strip_prime p n factors;
      if n =? 1 then mret (m, n, factors)
      else while_new_primes ps' m n factors
  end.

(** [Primes.multiply] *)
Definition multiply_step (n : Z) (f : factor) : outcome Z :=
  match f with
  | Power p e =>
      if e <? 0 then Raise ValueError
      else mret (Nat.iter (Z.to_nat e) (fun n => n * p) n)
  | Unit u => mret (n * u)
  end.

Fixpoint multiply_for (factors : list factor) (n : Z) : outcome Z :=
  match factors with
  | [] => mret n
  | f :: factors' => n ← multiply_step n f; multiply_for factors' n
  end.

Definition multiply (factors : factorization) : outcome Z :=
  match factors with
  | Zero => mret 0
  | Factors l => multiply_for l 1
  end.

(** Numbers the divisor functions return: an integer, [float('inf')],
    [float('nan')], or a finite float whose value this model does not
    follow. *)
Inductive number := Int (z : Z) | Inf | NaN | Float.

Section Factorizer.

(** [int(self.last_tested * phi)], as a function of [last_tested].  Python
    evaluates the product in binary floating point; here the function is a
    parameter, and [Binary64.golden_stop] below is the product itself. *)
Variable golden_stop : Z -> Z.

(** [while n > 1: ...], the loop that grows the sieve.  It returns the
    locals [n] and [factors] as it leaves them. *)
Fixpoint factor_while (fuel : nat) (m : nat) (n : Z) (factors : list factor)
    (st : Primes) : outcome (Z * list factor * Primes) :=
  if 1 <? n then
    match fuel with
    | O => OutOfFuel
    | S fuel' =>
        let stop := golden_stop (last_tested st) in
        let st := sieve stop st in
        '(m, n, factors) ←
          while_new_primes (drop m (odd_primes_list st)) m n factors;
        factor_while fuel' m n factors st
    end
  else mret (n, factors, st).

(** [Primes.factor_slow], with the local [n] (the cofactor that is left) next
    to the value returned. *)
Definition factor_slow_run (fuel : nat) (n : Z) (st : Primes)
  : outcome (Z * factorization * Primes) :=
  if n =? 0 then mret (n, Zero, st)
  else
    let unit := if 0 <? n then 1 else -1 in
    let factors := [Unit unit] in
    let n := Z.abs n in
    if n =? 1 then mret (n, Factors factors, st)
    else
      '(n, factors) ← strip_prime 2 n factors;
      if n =? 1 then mret (n, Factors factors, st)
      else
        '(returned, n, factors) ←
          for_odd_primes (odd_primes_list st) n factors;
        if returned : bool then mret (n, Factors factors, st)
        else
          let m := length (odd_primes_list st) in
          '(n, factors, st) ← factor_while fuel m n factors st;
          mret (n, Factors factors, st).

(** [Primes.factor_slow] *)
Definition factor_slow (fuel : nat) (n : Z) (st : Primes)
  : outcome (factorization * Primes) :=
  '(_, factors, st) ← factor_slow_run fuel n st;
  mret (factors, st).

(** [for factor in factors: if isinstance(factor, list): divisors *= e+1] *)
Definition d_for (factors : list factor) : Z :=
  fold_left (fun divisors f =>
               match f with
               | Power p e => divisors * (e + 1)
               | Unit _ => divisors
               end) factors 1.

(** [Primes.d] *)
Definition d (fuel : nat) (n : Z) (st : Primes) : outcome (number * Primes) :=
  if n =? 0 then mret (Inf, st)
  else
    let n := Z.abs n in
    if n =? 1 then mret (Int 1, st)
    else
      '(factors, st) ← factor_slow fuel n st;
      match factors with
      | Zero => Raise TypeError
      | Factors l => mret (Int (d_for l), st)
      end.

(** The inner loop of [sigma]: [for f in range(e+1): t += a; a *= m]. *)
Definition geometric_sum (m e : Z) : Z :=
  fst (Nat.iter (Z.to_nat (e + 1)) (fun '(t, a) => (t + a, a * m)) (0, 1)).

Definition sigma_for (k : Z) (factors : list factor) (s : Z) : Z :=
  fold_left (fun s f =>
               match f with
               | Power p e => s * geometric_sum (p ^ k) e
               | Unit _ => s
               end) factors s.

(** [Primes.sigma] for an integer exponent [k].  For [k < 0] Python computes
    [(-1)**k] and [p**k] as floats: the result is then [Float]. *)
Definition sigma (fuel : nat) (n k : Z) (st : Primes)
  : outcome (number * Primes) :=
  if k =? 0 then d fuel n st
  else if n =? 0 then mret (NaN, st)
  else
    let positive := 0 <? n in
    let s := if positive then 1 else (-1) ^ k in
    let n := Z.abs n in
    if n =? 1 then
      mret (if negb positive && (k <? 0) then Float else Int s, st)
    else
      '(factors, st) ← factor_slow fuel n st;
      match factors with
      | Zero => Raise TypeError
      | Factors l =>
          mret (if k <? 0 then Float else Int (sigma_for k l s), st)
      end.

End Factorizer.

(** ** The growth step as Python computes it *)

(** [stop = int(self.last_tested * phi)] multiplies an integer by a float:
    the integer is converted to a double, the product is rounded to a double
    and [int] drops the digits after the point.  The doubles are those of the
    library's [SpecFloat], the IEEE 754 operations on a mantissa and an
    exponent. *)
Module Binary64.

(** The format of a Python [float]: 53 bits of mantissa, infinities at the
    exponent 1024. *)
Definition prec : Z := 53.
Definition emax : Z := 1024.

(** [float(z)] for an integer [z]: the nearest double, ties to even, and
    [OverflowError] when [z] is beyond the doubles. *)
Definition of_int (z : Z) : outcome SpecFloat.spec_float :=
  match SpecFloat.binary_normalize prec emax z 0 false with
  | SpecFloat.S754_infinity _ => Raise OverflowError
  | x => mret x
  end.

(** [int(x)] for a float [x]: the digits after the point are dropped;
    [OverflowError] on an infinity, [ValueError] on a NaN. *)
Definition to_int (x : SpecFloat.spec_float) : outcome Z :=
  match x with
  | SpecFloat.S754_zero _ => mret 0
  | SpecFloat.S754_finite s m e =>
      mret (SpecFloat.cond_Zopp s
              (if 0 <=? e then Z.pos m * 2 ^ e else Z.pos m / 2 ^ (- e)))
  | SpecFloat.S754_infinity _ => Raise OverflowError
  | SpecFloat.S754_nan => Raise ValueError
  end.

(** An integer literal in a float expression. *)
Definition literal (z : Z) : SpecFloat.spec_float :=
  SpecFloat.binary_normalize prec emax z 0 false.

(** [phi = (1+sqrt(5))/2] *)
Definition phi : SpecFloat.spec_float :=
  SpecFloat.SFdiv prec emax
    (SpecFloat.SFadd prec emax (literal 1)
       (SpecFloat.SFsqrt prec emax (literal 5)))
    (literal 2).

(** [int(self.last_tested * phi)], as a function of [last_tested]. *)
Definition golden_stop (t : Z) : outcome Z :=
  x ← of_int t; to_int (SpecFloat.SFmul prec emax x phi).

(** [while n > 1: ...] of [factor_slow], with the product in doubles: the
    loop of [Factorizer] where [stop] may raise. *)
Fixpoint factor_while (fuel : nat) (m : nat) (n : Z) (factors : list factor)
    (st : Primes) : outcome (Z * list factor * Primes) :=
  if 1 <? n then
    match fuel with
    | O => OutOfFuel
    | S fuel' =>
        stop ← golden_stop (last_tested st);
        let st := sieve stop st in
        '(m, n, factors) ←
          while_new_primes (drop m (odd_primes_list st)) m n factors;
        factor_while fuel' m n factors st
    end
  else mret (n, factors, st).

(** [Primes.factor_slow], with the local [n] next to the value returned. *)
Definition factor_slow_run (fuel : nat) (n : Z) (st : Primes)
  : outcome (Z * factorization * Primes) :=
  if n =? 0 then mret (n, Zero, st)
  else
    let unit := if 0 <? n then 1 else -1 in
    let factors := [Unit unit] in
    let n := Z.abs n in
    if n =? 1 then mret (n, Factors factors, st)
    else
      '(n, factors) ← strip_prime 2 n factors;
      if n =? 1 then mret (n, Factors factors, st)
      else
        '(returned, n, factors) ←
          for_odd_primes (odd_primes_list st) n factors;
        if returned : bool then mret (n, Factors factors, st)
        else
          let m := length (odd_primes_list st) in
          '(n, factors, st) ← factor_while fuel m n factors st;
          mret (n, Factors factors, st).

(** [Primes.factor_slow] *)
Definition factor_slow (fuel : nat) (n : Z) (st : Primes)
  : outcome (factorization * Primes) :=
  '(_, factors, st) ← factor_slow_run fuel n st;
  mret (factors, st).

End Binary64.

(** ** The decorator [multiplicative] *)

(** The values a convention argument is compared with: an integer or one of
    the special floats. *)
Inductive pyval := VInt (z : Z) | VInf | VNegInf | VNaN.

(** Python's [==] on these values: a NaN is equal to nothing, itself
    included. *)
Definition py_eq (a b : pyval) : bool :=
  match a, b with
  | VInt x, VInt y => x =? y
  | VInf, VInf => true
  | VNegInf, VNegInf => true
  | _, _ => false
  end.

(** [x in {...}] for a set display.  Membership holds for an element that is
    the same object as [x] or equal to it; the display builds its elements
    anew at every evaluation ([float('nan')] is a call), so no argument is the
    same object as the NaN it holds and only [==] can succeed. *)
Definition py_in (x : pyval) (display : list pyval) : bool :=
  existsb (py_eq x) display.

(** What the closure [wrap] captures. *)
Record conventions := mkConventions { minus1 : pyval; zero : pyval }.

(** [multiplicative(minus1, zero)] up to the definition of [wrap]. *)
Definition multiplicative (minus1 zero : pyval) : outcome conventions :=
  if negb (py_in minus1 [VInt (-1); VInt 0; VInt 1]) then Raise ValueError
  else if negb (py_in zero [VInt 0; VInf; VNaN]) then Raise ValueError
  else mret (mkConventions minus1 zero).

(** ** Specification vocabulary *)

(** The state invariant of the sieve. *)
Record sieve_inv (st : Primes) : Prop := mk_sieve_inv {
  inv_odd : Z.odd (last_tested st) = true;
  inv_low : 9 <= last_tested st;
  inv_sorted : StronglySorted Z.lt (odd_primes_list st);
  inv_list : forall x,
      x ∈ odd_primes_list st <-> Z.prime x /\ 3 <= x <= last_tested st;
  inv_set : forall x,
      x ∈ small_primes_set st <-> Z.prime x /\ x <= last_tested st
}.

(** The brute-force divisor count: the [k] in [1..n] with [n % k == 0]. *)
Definition divisors (n : Z) : list Z :=
  List.filter (fun k => n mod k =? 0) (seqZ 1 n).


(** A factorization as the pairs [(p, e)] of its prime powers. *)
Definition pair_factor (pe : Z * Z) : factor := Power pe.1 pe.2.

(** The product of the prime powers, and of the [e + 1]. *)
Definition product (pairs : list (Z * Z)) : Z :=
  fold_right (fun pe acc => pe.1 ^ pe.2 * acc) 1 pairs.



(** [p ^ e] divides [n] exactly. *)
Definition exactly_divides (p e n : Z) : Prop :=
  (p ^ e | n) /\ ~ (p ^ (e + 1) | n).

(** [strip n pairs m]: taking the prime powers of [pairs] out of [n], the first
    one first and each one whole, leaves [m]. *)
Inductive strip : Z -> list (Z * Z) -> Z -> Prop :=
| strip_nil n : strip n [] n
| strip_cons p e n pairs m :
    Z.prime p -> 1 <= e -> ~ (p | n) -> strip n pairs m ->
    strip (p ^ e * n) ((p, e) :: pairs) m.

(** The invariant of the loops of [factor_slow]: [factors] is the unit [u]
    followed by pairs of ascending primes up to [bound], whose powers have been
    taken out of [n0] whole, with cofactor [n]. *)
Definition factored (u n0 bound : Z) (factors : list factor) (n : Z) : Prop :=
  exists pairs,
    factors = Unit u :: map pair_factor pairs
    /\ strip n0 pairs n
    /\ StronglySorted Z.lt pairs.*1
    /\ Forall (fun pe => pe.1 <= bound) pairs
    /\ 1 <= n.


(** No prime up to [bound] divides [n]. *)
Definition no_prime_upto (bound n : Z) : Prop :=
  forall q, Z.prime q -> q <= bound -> ~ (q | n).

(** The table is right up to [last_tested]: the set is 2 with the odd primes
    up to [last_tested], the list is those odd primes in ascending order, no
    prime up to [last_tested] is missing and nothing else is in either. *)
Definition table_correct (st : Primes) : Prop :=
  (forall x, x ∈ small_primes_set st <->
             x = 2 \/ (Z.prime x /\ Z.odd x = true /\ x <= last_tested st))
  /\ StronglySorted Z.lt (odd_primes_list st)
  /\ (forall x, x ∈ odd_primes_list st <->
                Z.prime x /\ Z.odd x = true /\ x <= last_tested st)
  /\ (forall x, x <= last_tested st -> Z.prime x -> x ∈ small_primes_set st)
  /\ (forall x, x <= last_tested st -> ~ Z.prime x ->
                (x ∉ small_primes_set st) /\ (x ∉ odd_primes_list st)).

(** An instance of the growth function: [t] times the decimal expansion
    1.618033988749895 of [phi], rounded down. *)
Definition golden_stop_decimal (t : Z) : Z :=
  t * 1618033988749895 / 1000000000000000.

(** ** The rest of [primality.py] *)

(** [x - n] for a number [x] the divisor functions return and an integer
    [n]. *)
Definition number_sub (x : number) (n : Z) : number :=
  match x with
  | Int z => Int (z - n)
  | Inf => Inf
  | NaN => NaN
  | Float => Float
  end.

(** The product [retval * f(p, e)] of a convention value [retval] and the
    integer the prime-power function returns. *)
Definition py_mul (x : pyval) (k : Z) : pyval :=
  match x with
  | VInt z => VInt (z * k)
  | VInf => if 0 <? k then VInf else if k <? 0 then VNegInf else VNaN
  | VNegInf => if 0 <? k then VNegInf else if k <? 0 then VInf else VNaN
  | VNaN => VNaN
  end.

(** The loop of [wrapped_f]: for each [factor] of [factors] that is a list
    [[p, e]], [retval] is multiplied by [f(p, e)]. *)
Definition wrapped_for (f : Z -> Z -> Z) (factors : list factor)
    (retval : pyval) : pyval :=
  fold_left (fun retval x =>
               match x with
               | Power p e => py_mul retval (f p e)
               | Unit _ => retval
               end) factors retval.

(** The function [square_free] is before it is decorated. *)
Definition square_free_at (p e : Z) : Z := if e <? 2 then 1 else 0.

(** The function [totient] is before it is decorated.  The wrapper calls it
    with [e >= 1], where [p**e] is an integer. *)
Definition totient_at (p e : Z) : Z :=
  let n := p ^ e in
  n - n / p.

Section Arithmetic.

(** [int(self.last_tested * phi)], as in section [Factorizer]. *)
Variable golden_stop : Z -> Z.

(** [Primes.s] *)
Definition s (fuel : nat) (n : Z) (st : Primes) : outcome (number * Primes) :=
  '(v, st) ← sigma golden_stop fuel n 1 st;
  mret (number_sub v n, st).

(** [wrapped_f], the function [wrap] returns, for the conventions [c] and
    the prime-power function [f] it has captured.  [primes] is an instance of
    [Primes], so its [factor_slow] works on the shared state. *)
Definition wrapped_f (c : conventions) (f : Z -> Z -> Z) (fuel : nat) (n : Z)
    (st : Primes) : outcome (pyval * Primes) :=
  if n =? 0 then mret (zero c, st)
  else
    let retval := if 0 <? n then VInt 1 else minus1 c in
    let n := Z.abs n in
    '(factors, st) ← factor_slow golden_stop fuel n st;
    match factors with
    | Zero => Raise TypeError
    | Factors l => mret (wrapped_for f l retval, st)
    end.

(** [@multiplicative(1, 0) def square_free]: the decorator is applied when
    the module is loaded. *)
Definition square_free (fuel : nat) (n : Z) (st : Primes)
  : outcome (pyval * Primes) :=
  c ← multiplicative (VInt 1) (VInt 0);
  wrapped_f c square_free_at fuel n st.

(** [@multiplicative(-1, 0) def totient] *)
Definition totient (fuel : nat) (n : Z) (st : Primes)
  : outcome (pyval * Primes) :=
  c ← multiplicative (VInt (-1)) (VInt 0);
  wrapped_f c totient_at fuel n st.

End Arithmetic.

(** ** [GaussianInt.is_prime] of [gaussian_int.py] *)

(** A Gaussian integer [a + bi]: the fields [_a] and [_b]; [_c] is 1, and the
    constructor's division by [gcd(a, b, 1)] changes nothing. *)
Record GaussianInt := mkGaussianInt { re : Z; im : Z }.

(** [GaussianFrac.normsq] on a Gaussian integer. *)
Definition normsq (u : GaussianInt) : Z := re u ^ 2 + im u ^ 2.

(** The truth value of a result of the oracle in a condition: [Maybe] is the
    float infinity, which is true. *)
Definition truthy (t : ternary) : bool :=
  match t with
  | Bool b => b
  | Maybe => true
  end.

(** [GaussianInt.is_prime]; [isqrt] is [Z.sqrt]. *)
Definition gaussian_is_prime (u : GaussianInt) (st : Primes)
  : ternary * Primes :=
  let normsq := normsq u in
  let '(r, st) := is_prime normsq true st in
  if truthy r then (Bool true, st)
  else
    let norm := Z.sqrt normsq in
    if negb (norm * norm =? normsq) then (Bool false, st)
    else if norm mod 4 =? 3 then is_prime norm true st
    else (Bool false, st).

(** ** [Aliquot.aliquot_sequence] of [aliquot.py] *)

(** The termination constants of the class [Aliquot]. *)
Inductive aliquot_status :=
| PREMATURE_TERMINATION
| TERMINATING
| PERIODIC
| LENGTH_EXCEEDED
| LARGEST_EXCEEDED
| SIEVE_OVERFLOW.

(** How a call of [aliquot_sequence] ends: it returns the list [seq] (with the
    class variable [status] and the sieve state it leaves), or it raises, an
    exception of the core or the [IndexError] of [odd_primes_list[-1]] on an
    empty list, with [status] as it stands then.  [AFloatTerm] is a term that
    is a float other than NaN and infinity: what the comparisons do with it
    depends on its value, which [number] does not hold. *)
Inductive aliquot_outcome :=
| AReturn (seq : list number) (status : aliquot_status) (st : Primes)
| ARaise (e : exn) (status : aliquot_status)
| AIndexError (status : aliquot_status)
| AFloatTerm
| AOutOfFuel.

(** [n == z], [n > z] and [n in domain] for a term [n] that is an integer,
    NaN or infinity; the set holds the integer terms met so far. *)
Definition number_eqb (x : number) (z : Z) : bool :=
  match x with
  | Int y => y =? z
  | _ => false
  end.

Definition number_gtb (x : number) (z : Z) : bool :=
  match x with
  | Int y => z <? y
  | Inf => true
  | _ => false
  end.

Definition number_in (x : number) (domain : gset Z) : bool :=
  match x with
  | Int y => bool_decide (y ∈ domain)
  | _ => false
  end.

Section AliquotDriver.

Variable golden_stop : Z -> Z.

(** The loop [while True: ...] of [aliquot_sequence]; [turns] bounds its
    turns and [fuel] is handed to [primes.s].  The warnings are printed only
    and [old_pmax] serves them only: they are left out.  A term that is not
    an integer makes [primes.s] raise [TypeError] at the next turn. *)
Fixpoint aliquot_while (turns fuel : nat)
    (max_length largest largest_prime : Z)
    (n : Z) (seq : list number) (domain : gset Z) (st : Primes)
  : aliquot_outcome :=
  match turns with
  | O => AOutOfFuel
  | S turns' =>
      match s golden_stop fuel n st with
      | OutOfFuel => AOutOfFuel
      | Raise e => ARaise e PREMATURE_TERMINATION
      | Done (Float, _) => AFloatTerm
      | Done (v, st) =>
          let seq := seq ++ [v] in
          if number_eqb v 0 then AReturn seq TERMINATING st
          else if number_in v domain then AReturn seq PERIODIC st
          else if max_length <=? Z.of_nat (length seq)
               then AReturn seq LENGTH_EXCEEDED st
          else if number_gtb v largest then AReturn seq LARGEST_EXCEEDED st
          else
            match last (odd_primes_list st) with
            | None => AIndexError PREMATURE_TERMINATION
            | Some pmax =>
                if largest_prime <? pmax then AReturn seq SIEVE_OVERFLOW st
                else
                  match v with
                  | Int z =>
                      aliquot_while turns' fuel max_length largest
                        largest_prime z seq (domain ∪ {[z]}) st
                  | _ => ARaise TypeError PREMATURE_TERMINATION
                  end
            end
      end
  end.

(** [Aliquot.aliquot_sequence] *)
Definition aliquot_sequence (turns fuel : nat) (n : Z)
    (max_length largest largest_prime : Z) (st : Primes) : aliquot_outcome :=
  let n := Z.abs n in
  match last (odd_primes_list st) with
  | None => AIndexError PREMATURE_TERMINATION
  | Some old_pmax =>
      aliquot_while turns fuel max_length largest largest_prime n [] ∅ st
  end.

End AliquotDriver.

(** ** More specification vocabulary *)








(** The integer an entry of a factor list stands for, and the product of a
    list of entries. *)
Definition factor_value (f : factor) : Z :=
  match f with
  | Unit u => u
  | Power p e => p ^ e
  end.

Definition factors_product (l : list factor) : Z :=
  fold_right (fun f acc => factor_value f * acc) 1 l.

(** An entry [[p, e]] with [e < 0]. *)
Definition negative_power (f : factor) : Prop :=
  match f with
  | Unit _ => False
  | Power _ e => e < 0
  end.



(** * Arithmetic facts *)

Lemma mod_eqb_divide (n p : Z) : 0 < p -> (n mod p =? 0) = true <-> (p | n).
Proof.
  intros Hp. rewrite Z.eqb_eq. apply Z.mod_divide. lia.
Qed.

Lemma mod_eqb_not_divide (n p : Z) :
  0 < p -> (n mod p =? 0) = false <-> ~ (p | n).
Proof.
  intros Hp. rewrite <- (mod_eqb_divide n p Hp).
  destruct (n mod p =? 0); split; intros; congruence.
Qed.

Lemma divide_le (a b : Z) : 0 < b -> (a | b) -> a <= b.
Proof.
  intros Hb Hd. destruct (Z_le_gt_dec a 0); [lia|].
  apply Z.divide_pos_le; auto.
Qed.

(** Trial division decides primality. *)
Lemma prime_or_proper_divisor (n : Z) :
  1 < n -> Z.prime n \/ exists a, 1 < a < n /\ (a | n).
Proof.
  intros Hn.
  destruct (existsb (fun a => n mod a =? 0) (seqZ 2 (n - 2))) eqn:E.
  - right. apply existsb_exists in E as (a & Hin & Ha).
    apply list_elem_of_In, elem_of_seqZ in Hin.
    exists a. split; [lia|]. apply mod_eqb_divide in Ha; [assumption | lia].
  - left. split; [assumption|]. intros a Ha Hd.
    assert (Hex : existsb (fun a => n mod a =? 0) (seqZ 2 (n - 2)) = true).
    { apply existsb_exists. exists a. split.
      - apply list_elem_of_In, elem_of_seqZ. lia.
      - apply mod_eqb_divide; [lia | assumption]. }
    congruence.
Qed.

(** Every integer above 1 has a prime divisor. *)
Lemma exists_prime_divisor (n : Z) : 1 < n -> exists q, Z.prime q /\ (q | n).
Proof.
  intros Hn. assert (H0 : 0 <= n) by lia. revert Hn.
  pattern n. apply Z_lt_induction; [|exact H0].
  clear n H0. intros n IH Hn.
  destruct (prime_or_proper_divisor n Hn) as [Hp | (a & Ha & Hdiv)].
  - exists n. split; [assumption | apply Z.divide_refl].
  - destruct (IH a) as (q & Hq & Hqa); [lia | lia |].
    exists q. split; [assumption|]. eapply Z.divide_trans; eassumption.
Qed.

(** A composite has a prime divisor that is at most its square root. *)
Lemma small_prime_divisor (n : Z) :
  1 < n -> ~ Z.prime n -> exists q, Z.prime q /\ (q | n) /\ q * q <= n.
Proof.
  intros Hn Hnp.
  destruct (prime_or_proper_divisor n Hn) as [Hp | (a & Ha & b & Hb)];
    [contradiction|].
  assert (Hb1 : 1 < b) by nia.
  assert (Hsmall : exists s, 1 < s /\ (s | n) /\ s * s <= n).
  { destruct (Z_le_gt_dec a b).
    - exists a. split; [lia | split; [exists b; lia | nia]].
    - exists b. split; [lia | split; [exists a; lia | nia]]. }
  destruct Hsmall as (s & Hs & Hsn & Hss).
  destruct (exists_prime_divisor s Hs) as (q & Hq & Hqs).
  exists q. split; [assumption | split; [eapply Z.divide_trans; eassumption |]].
  assert (q <= s) by (apply divide_le; [lia | assumption]).
  pose proof (Z.prime_ge_2 q Hq). nia.
Qed.

Lemma odd_not_divide_2 (n : Z) : Z.odd n = true -> ~ (2 | n).
Proof.
  intros Ho [k Hk]. subst n. rewrite Z.mul_comm, Z.odd_mul in Ho. discriminate.
Qed.

Lemma not_divide_2_odd (n : Z) : ~ (2 | n) -> Z.odd n = true.
Proof.
  intros Hd. destruct (Z.odd n) eqn:E; [reflexivity|]. exfalso. apply Hd.
  rewrite <- Z.negb_even in E. apply negb_false_iff, Z.even_spec in E.
  destruct E as [k Hk]. exists k. lia.
Qed.

Lemma prime_proper_divisor (p a : Z) :
  Z.prime p -> 1 < a < p -> ~ (a | p).
Proof. intros [_ Hp] Ha. apply Hp. assumption. Qed.

(** * The sieve *)

Lemma existsb_divides_true (c : Z) (ps : list Z) :
  (forall p, p ∈ ps -> 0 < p) ->
  existsb (fun p => c mod p =? 0) ps = true <-> exists p, p ∈ ps /\ (p | c).
Proof.
  intros Hpos. rewrite existsb_exists. split.
  - intros (p & Hin & Hp). apply list_elem_of_In in Hin. exists p.
    split; [assumption|]. apply mod_eqb_divide in Hp; auto.
  - intros (p & Hin & Hp). exists p. split; [apply list_elem_of_In; assumption|].
    apply mod_eqb_divide; auto.
Qed.

Lemma existsb_divides_false (c : Z) (ps : list Z) :
  (forall p, p ∈ ps -> 0 < p) ->
  existsb (fun p => c mod p =? 0) ps = false <-> forall p, p ∈ ps -> ~ (p | c).
Proof.
  intros Hpos. pose proof (existsb_divides_true c ps Hpos) as Ht.
  destruct (existsb _ ps); split; try congruence.
  - intros Hall. destruct Ht as [Ht _]. destruct (Ht eq_refl) as (p & Hin & Hd).
    exfalso. exact (Hall p Hin Hd).
  - intros _ p Hin Hd. destruct Ht as [_ Ht].
    assert (false = true) by (apply Ht; eauto). discriminate.
Qed.

Lemma inv_list_pos (st : Primes) :
  sieve_inv st -> forall p, p ∈ odd_primes_list st -> 0 < p.
Proof. intros Hinv p Hp. apply (inv_list st Hinv) in Hp. lia. Qed.

(** Under the invariant a prime up to [last_tested] is 2 or in the list. *)
Lemma inv_prime_cases (st : Primes) (q : Z) :
  sieve_inv st -> Z.prime q -> q <= last_tested st ->
  q = 2 \/ q ∈ odd_primes_list st.
Proof.
  intros Hinv Hq Hle. pose proof (Z.prime_ge_2 q Hq).
  destruct (Z.eq_dec q 2); [left; assumption | right].
  apply (inv_list st Hinv). split; [assumption | lia].
Qed.

(** The test of the sieve is exact: the odd candidate after [last_tested] is
    prime if and only if no prime of the list divides it. *)
Lemma candidate_test (st : Primes) :
  sieve_inv st ->
  existsb (fun p => (last_tested st + 2) mod p =? 0) (odd_primes_list st)
  = false <-> Z.prime (last_tested st + 2).
Proof.
  intros Hinv. pose proof (inv_low st Hinv) as Hlow.
  rewrite (existsb_divides_false _ _ (inv_list_pos st Hinv)). split.
  - intros Hnone.
    destruct (prime_or_proper_divisor (last_tested st + 2)) as [Hp|Hd];
      [lia | assumption |].
    assert (Hnp : ~ Z.prime (last_tested st + 2)).
    { intros [_ Hp]. destruct Hd as (a & Ha & Hda). exact (Hp a Ha Hda). }
    destruct (small_prime_divisor (last_tested st + 2))
      as (q & Hq & Hqc & Hqq); [lia | assumption |].
    pose proof (Z.prime_ge_2 q Hq) as Hq2.
    assert (Hodd : Z.odd (last_tested st + 2) = true).
    { rewrite Z.odd_add. rewrite (inv_odd st Hinv). reflexivity. }
    assert (q <> 2) by (intros ->; exact (odd_not_divide_2 _ Hodd Hqc)).
    exfalso. apply (Hnone q); [|assumption].
    assert (3 * q <= q * q) by nia.
    apply (inv_list st Hinv). split; [assumption | lia].
  - intros Hp p Hin Hd. apply (inv_list st Hinv) in Hin as [Hpp Hrange].
    apply (prime_proper_divisor _ p Hp); [lia | assumption].
Qed.

Lemma sieve_body_last_tested (st : Primes) :
  last_tested (sieve_body st) = last_tested st + 2.
Proof. unfold sieve_body. destruct (negb _); reflexivity. Qed.

Lemma sieve_body_extends (st : Primes) :
  exists new, odd_primes_list (sieve_body st) = odd_primes_list st ++ new.
Proof.
  unfold sieve_body. destruct (negb _); simpl.
  - eexists; reflexivity.
  - exists []. rewrite app_nil_r. reflexivity.
Qed.

(** Between [last_tested] and the next candidate there is no prime. *)
Lemma prime_next_candidate (st : Primes) (x : Z) :
  sieve_inv st -> Z.prime x -> last_tested st < x <= last_tested st + 2 ->
  x = last_tested st + 2.
Proof.
  intros Hinv Hx Hr. destruct (Z.eq_dec x (last_tested st + 2)); [assumption|].
  assert (x = last_tested st + 1) by lia. subst x. exfalso.
  pose proof (inv_low st Hinv).
  apply (prime_proper_divisor _ 2 Hx); [lia|].
  pose proof (inv_odd st Hinv) as Ho.
  rewrite <- Z.negb_even in Ho. apply negb_true_iff in Ho.
  assert (He : Z.even (last_tested st + 1) = true).
  { rewrite Z.even_add, Ho. reflexivity. }
  apply Z.even_spec in He as [k Hk]. exists k. lia.
Qed.

Lemma sieve_body_inv (st : Primes) : sieve_inv st -> sieve_inv (sieve_body st).
Proof.
  intros Hinv. pose proof (candidate_test st Hinv) as Htest.
  pose proof (inv_low st Hinv) as Hlow.
  unfold sieve_body.
  destruct (existsb _ (odd_primes_list st)) eqn:E; simpl.
  - assert (Hnp : ~ Z.prime (last_tested st + 2)).
    { intros Hp. apply Htest in Hp. discriminate. }
    constructor; simpl.
    + rewrite Z.odd_add, (inv_odd st Hinv). reflexivity.
    + lia.
    + exact (inv_sorted st Hinv).
    + intros x. rewrite (inv_list st Hinv x). split; [intros [? ?]; split; [assumption|lia]|].
      intros [Hx Hr]. split; [assumption|].
      destruct (Z_le_gt_dec x (last_tested st)); [lia|].
      assert (x = last_tested st + 2)
        by (apply prime_next_candidate; [assumption.. | lia]).
      subst x. contradiction.
    + intros x. rewrite (inv_set st Hinv x). split; [intros [? ?]; split; [assumption|lia]|].
      intros [Hx Hr]. split; [assumption|].
      destruct (Z_le_gt_dec x (last_tested st)); [lia|].
      assert (x = last_tested st + 2)
        by (apply prime_next_candidate; [assumption.. | lia]).
      subst x. contradiction.
  - assert (Hp : Z.prime (last_tested st + 2)) by (apply Htest; reflexivity).
    constructor; simpl.
    + rewrite Z.odd_add, (inv_odd st Hinv). reflexivity.
    + lia.
    + apply StronglySorted_app_2.
      * intros x1 x2 H1 H2. apply (inv_list st Hinv) in H1.
        apply list_elem_of_singleton in H2. lia.
      * exact (inv_sorted st Hinv).
      * repeat constructor.
    + intros x. rewrite elem_of_app, list_elem_of_singleton, (inv_list st Hinv x).
      split.
      * intros [[? ?] | ->]; split; try assumption; lia.
      * intros [Hx Hr]. destruct (Z_le_gt_dec x (last_tested st)).
        -- left. split; [assumption | lia].
        -- right. apply prime_next_candidate; [assumption.. | lia].
    + intros x. rewrite elem_of_union, elem_of_singleton, (inv_set st Hinv x).
      split.
      * intros [[? ?] | ->]; split; try assumption; lia.
      * intros [Hx Hr]. destruct (Z_le_gt_dec x (last_tested st)).
        -- left. split; [assumption | lia].
        -- right. apply prime_next_candidate; [assumption.. | lia].
Qed.

Lemma not_prime_product (a b : Z) : 1 < a -> 1 < b -> ~ Z.prime (a * b).
Proof.
  intros Ha Hb Hp. apply (prime_proper_divisor _ a Hp); [nia|].
  exists b. lia.
Qed.

Lemma prime_5 : Z.prime 5.
Proof.
  split; [lia|]. intros n Hn [k Hk].
  assert (Hc : n = 2 \/ n = 3 \/ n = 4) by lia.
  destruct Hc as [-> | [-> | ->]]; lia.
Qed.

Lemma prime_7 : Z.prime 7.
Proof.
  split; [lia|]. intros n Hn [k Hk].
  assert (Hc : n = 2 \/ n = 3 \/ n = 4 \/ n = 5 \/ n = 6) by lia.
  destruct Hc as [-> | [-> | [-> | [-> | ->]]]]; lia.
Qed.

Lemma primes_up_to_9 (x : Z) :
  Z.prime x /\ x <= 9 <-> x = 2 \/ x = 3 \/ x = 5 \/ x = 7.
Proof.
  split.
  - intros [Hp Hx]. pose proof (Z.prime_ge_2 x Hp).
    assert (Hc : x = 2 \/ x = 3 \/ x = 2 * 2 \/ x = 5 \/ x = 2 * 3 \/ x = 7
                 \/ x = 2 * 4 \/ x = 3 * 3) by lia.
    destruct Hc as [?|[?|[->|[?|[->|[?|[->| ->]]]]]]]; auto;
      exfalso; revert Hp; apply not_prime_product; lia.
  - intros [-> | [-> | [-> | ->]]]; split; try lia.
    + apply Z.prime_2.
    + apply Z.prime_3.
    + apply prime_5.
    + apply prime_7.
Qed.

Lemma sieve_inv_initial : sieve_inv initial.
Proof.
  constructor; simpl.
  - reflexivity.
  - lia.
  - repeat constructor; lia.
  - intros x. rewrite !elem_of_cons, elem_of_nil. split.
    + intros [-> | [-> | [-> | []]]]; (split; [|lia]);
        [apply Z.prime_3 | apply prime_5 | apply prime_7].
    + intros [Hp Hr].
      destruct (proj1 (primes_up_to_9 x)) as [?|[?|[?|?]]]; auto; try lia.
      split; [assumption | lia].
  - intros x. rewrite !elem_of_union, !elem_of_singleton, primes_up_to_9.
    tauto.
Qed.

Lemma sieve_while_inv (fuel : nat) (stop : Z) (st : Primes) :
  sieve_inv st -> sieve_inv (sieve_while fuel stop st).
Proof.
  revert st. induction fuel as [|fuel IH]; intros st Hinv; simpl; [assumption|].
  destruct (last_tested st <? stop); [|assumption].
  apply IH, sieve_body_inv, Hinv.
Qed.

(** The loop of [sieve] is left through its condition, not for want of
    fuel. *)
Lemma sieve_while_exit (fuel : nat) (stop : Z) (st : Primes) :
  stop - last_tested st <= Z.of_nat fuel ->
  stop <= last_tested (sieve_while fuel stop st).
Proof.
  revert st. induction fuel as [|fuel IH]; intros st Hfuel; simpl; [lia|].
  destruct (Z.ltb_spec (last_tested st) stop); [|lia].
  apply IH. rewrite sieve_body_last_tested. lia.
Qed.

(** More fuel than that does not change the state it returns. *)
Lemma sieve_while_fuel (fuel fuel' : nat) (stop : Z) (st : Primes) :
  stop - last_tested st <= Z.of_nat fuel -> (fuel <= fuel')%nat ->
  sieve_while fuel' stop st = sieve_while fuel stop st.
Proof.
  revert fuel' st. induction fuel as [|fuel IH]; intros fuel' st Hfuel Hle.
  - destruct fuel'; simpl; [reflexivity|].
    destruct (Z.ltb_spec (last_tested st) stop); [lia | reflexivity].
  - destruct fuel' as [|fuel']; [lia|]. simpl.
    destruct (Z.ltb_spec (last_tested st) stop); [|reflexivity].
    apply IH; [rewrite sieve_body_last_tested; lia | lia].
Qed.

Lemma sieve_while_monotone (fuel : nat) (stop : Z) (st : Primes) :
  last_tested st <= last_tested (sieve_while fuel stop st).
Proof.
  revert st. induction fuel as [|fuel IH]; intros st; simpl; [lia|].
  destruct (last_tested st <? stop); [|lia].
  specialize (IH (sieve_body st)). rewrite sieve_body_last_tested in IH. lia.
Qed.

Lemma sieve_while_extends (fuel : nat) (stop : Z) (st : Primes) :
  exists new,
    odd_primes_list (sieve_while fuel stop st) = odd_primes_list st ++ new.
Proof.
  revert st. induction fuel as [|fuel IH]; intros st; simpl.
  - exists []. rewrite app_nil_r. reflexivity.
  - destruct (last_tested st <? stop).
    + destruct (IH (sieve_body st)) as [new2 H2].
      destruct (sieve_body_extends st) as [new1 H1].
      exists (new1 ++ new2). rewrite H2, H1, app_assoc. reflexivity.
    + exists []. rewrite app_nil_r. reflexivity.
Qed.

Lemma sieve_inv_preserved (stop : Z) (st : Primes) :
  sieve_inv st -> sieve_inv (sieve stop st).
Proof.
  intros Hinv. unfold sieve. destruct (stop =? 0); [assumption|].
  apply sieve_while_inv, Hinv.
Qed.

Lemma reachable_inv (st : Primes) : reachable st -> sieve_inv st.
Proof.
  induction 1 as [|stop st _ IH].
  - exact sieve_inv_initial.
  - apply sieve_inv_preserved, IH.
Qed.

(** [sieve] returns with [last_tested] at or past [|stop|], for [stop <> 0]. *)
Lemma sieve_covers (stop : Z) (st : Primes) :
  stop <> 0 -> Z.abs stop <= last_tested (sieve stop st).
Proof.
  intros Hstop. unfold sieve. destruct (Z.eqb_spec stop 0); [contradiction|].
  apply sieve_while_exit. lia.
Qed.

Lemma sieve_monotone (stop : Z) (st : Primes) :
  last_tested st <= last_tested (sieve stop st).
Proof.
  unfold sieve. destruct (stop =? 0); [lia|]. apply sieve_while_monotone.
Qed.

Lemma sieve_extends (stop : Z) (st : Primes) :
  exists new, odd_primes_list (sieve stop st) = odd_primes_list st ++ new.
Proof.
  unfold sieve. destruct (stop =? 0).
  - exists []. rewrite app_nil_r. reflexivity.
  - apply sieve_while_extends.
Qed.

Lemma sieve_while_covered (fuel : nat) (stop : Z) (st : Primes) :
  stop <= last_tested st -> sieve_while fuel stop st = st.
Proof.
  intros Hle. destruct fuel; simpl; [reflexivity|].
  destruct (Z.ltb_spec (last_tested st) stop); [lia | reflexivity].
Qed.

(** * Extracting the power of a prime *)

Lemma log2_quotient (p m : Z) : 2 <= p -> 1 <= m -> Z.log2 m + 1 <= Z.log2 (p * m).
Proof.
  intros Hp Hm. pose proof (Z.log2_double m ltac:(lia)) as Hd.
  pose proof (Z.log2_le_mono (2 * m) (p * m) ltac:(nia)). lia.
Qed.

Lemma extract_power_while_spec (fuel : nat) (e n p : Z) :
  2 <= p -> 1 <= n -> Z.log2 n <= Z.of_nat fuel ->
  exists k n',
    extract_power_while fuel e n p = Done (e + k, n')
    /\ 0 <= k /\ n = p ^ k * n' /\ ~ (p | n') /\ 1 <= n'.
Proof.
  intros Hp. revert e n.
  induction fuel as [|fuel IH]; intros e n Hn Hfuel.
  - assert (n = 1).
    { destruct (Z.eq_dec n 1); [assumption|].
      pose proof (Z.log2_pos n ltac:(lia)). lia. }
    subst n. simpl. rewrite Z.mod_1_l by lia. simpl.
    exists 0, 1. rewrite Z.add_0_r. repeat split; try lia.
    intros Hd. apply divide_le in Hd; lia.
  - simpl. destruct (n mod p =? 0) eqn:E.
    + apply mod_eqb_divide in E; [|lia]. destruct E as [m Hm].
      assert (Hm1 : 1 <= m) by nia.
      assert (Hq : n / p = m) by (subst n; apply Z.div_mul; lia).
      rewrite Hq.
      destruct (IH (e + 1) m Hm1) as (k & n' & Hrun & Hk & Hprod & Hnd & Hn').
      { pose proof (log2_quotient p m Hp Hm1).
        replace (p * m) with n in * by lia. lia. }
      exists (k + 1), n'. rewrite Hrun.
      split; [f_equal; f_equal; lia|]. split; [lia|]. split; [|tauto].
      rewrite Z.pow_add_r, Z.pow_1_r by lia. subst n. rewrite Hprod at 1. ring.
    + apply mod_eqb_not_divide in E; [|lia].
      exists 0, n. rewrite Z.add_0_r, Z.pow_0_r. repeat split; try lia.
      assumption.
Qed.

Lemma extract_power_spec (n p : Z) :
  2 <= p -> 1 <= n ->
  exists e n',
    extract_power n p = Done (e, n')
    /\ 0 <= e /\ n = p ^ e * n' /\ ~ (p | n') /\ 1 <= n'.
Proof.
  intros Hp Hn. unfold extract_power.
  destruct (Z.eqb_spec p 0); [lia|].
  destruct (extract_power_while_spec (Z.to_nat (Z.log2 (Z.abs n))) 0 n p)
    as (k & n' & Hrun & H); [assumption.. | |].
  { rewrite Z.abs_eq by lia. pose proof (Z.log2_nonneg n). lia. }
  exists k, n'. rewrite Hrun. split; [reflexivity | assumption].
Qed.

(** * The loops of the factorizer *)

Lemma strip_snoc (n0 : Z) (pairs : list (Z * Z)) (n p e n' : Z) :
  strip n0 pairs n -> Z.prime p -> 1 <= e -> ~ (p | n') -> n = p ^ e * n' ->
  strip n0 (pairs ++ [(p, e)]) n'.
Proof.
  intros Hs Hp He Hnd Hn. induction Hs as [n | q f n pairs m Hq Hf Hqn Hs IH].
  - subst n. simpl. apply strip_cons; auto. apply strip_nil.
  - simpl. apply strip_cons; auto.
Qed.

Lemma factored_weaken (u n0 b b' : Z) (fs : list factor) (n : Z) :
  b <= b' -> factored u n0 b fs n -> factored u n0 b' fs n.
Proof.
  intros Hb (pairs & Hfs & Hs & Hsort & Hbound & Hn).
  exists pairs. repeat split; try assumption.
  eapply Forall_impl; [exact Hbound|]. simpl. intros; lia.
Qed.

(** One prime taken out. *)
Lemma strip_prime_spec (u n0 bound p : Z) (fs : list factor) (n : Z) :
  Z.prime p -> bound < p -> factored u n0 bound fs n ->
  exists n' fs',
    strip_prime p n fs = Done (n', fs')
    /\ factored u n0 p fs' n' /\ ~ (p | n') /\ (n' | n).
Proof.
  intros Hp Hb (pairs & Hfs & Hs & Hsort & Hbound & Hn).
  pose proof (Z.prime_ge_2 p Hp) as Hp2.
  destruct (extract_power_spec n p Hp2 Hn) as (e & n' & Hrun & He & Hprod & Hnd & Hn').
  exists n'. unfold strip_prime. rewrite Hrun. simpl.
  eexists. split; [reflexivity|].
  split; [| split; [assumption | exists (p ^ e); lia]].
  destruct (Z.ltb_spec 0 e).
  - exists (pairs ++ [(p, e)]). split; [|split; [|split; [|split]]].
    + rewrite Hfs, map_app. reflexivity.
    + eapply strip_snoc; eauto. lia.
    + rewrite fmap_app. apply StronglySorted_app_2.
      * intros x1 x2 H1 H2. apply list_elem_of_singleton in H2. subst x2.
        apply list_elem_of_fmap in H1 as (pe & -> & Hin).
        rewrite Forall_forall in Hbound. specialize (Hbound pe Hin). simpl in *. lia.
      * assumption.
      * repeat constructor.
    + apply Forall_app. split.
      * eapply Forall_impl; [exact Hbound|]. simpl. intros; lia.
      * repeat constructor. simpl. lia.
    + assumption.
  - assert (e = 0) by lia. subst e. rewrite Z.pow_0_r in Hprod.
    replace n' with n by lia.
    apply (factored_weaken u n0 bound p); [lia|].
    exists pairs. repeat split; assumption.
Qed.

Lemma while_new_primes_spec (u n0 B : Z) (ps : list Z) :
  forall (bound : Z) (m : nat) (n : Z) (fs : list factor),
    StronglySorted Z.lt ps -> Forall Z.prime ps ->
    Forall (fun p => bound < p <= B) ps -> bound <= B ->
    factored u n0 bound fs n ->
    exists m' n' fs',
      while_new_primes ps m n fs = Done (m', n', fs')
      /\ factored u n0 B fs' n' /\ (n' | n)
      /\ (n' = 1 \/ (m' = (m + length ps)%nat /\ forall p, p ∈ ps -> ~ (p | n'))).
Proof.
  induction ps as [|p ps IH]; intros bound m n fs Hsort Hprime Hrange HB Hf.
  - exists m, n, fs. simpl. split; [reflexivity|].
    split; [eapply factored_weaken; eauto|]. split; [apply Z.divide_refl|].
    right. split; [lia|]. intros p Hp. inversion Hp.
  - apply StronglySorted_inv in Hsort as [Hsort Hlt].
    apply Forall_cons in Hprime as [Hp Hprime].
    apply Forall_cons in Hrange as [Hpr Hrange].
    destruct (strip_prime_spec u n0 bound p fs n Hp ltac:(lia) Hf)
      as (n1 & fs1 & Hrun & Hf1 & Hnd1 & Hdiv1).
    simpl. rewrite Hrun. simpl.
    destruct (Z.eqb_spec n1 1) as [->|Hne].
    + exists (S m), 1, fs1. split; [reflexivity|].
      split; [eapply factored_weaken; [|exact Hf1]; lia|].
      split; [assumption | left; reflexivity].
    + destruct (IH p (S m) n1 fs1) as (m' & n' & fs' & Hrun' & Hf' & Hdiv' & Hend);
        auto; [| lia |].
      { rewrite Forall_forall in *. intros x Hx.
        specialize (Hlt x Hx). specialize (Hrange x Hx). lia. }
      exists m', n', fs'. split; [assumption|]. split; [assumption|].
      split; [eapply Z.divide_trans; eassumption|].
      destruct Hend as [-> | [Hm Hall]]; [left; reflexivity | right].
      split; [simpl; lia|].
      intros q Hq. apply elem_of_cons in Hq as [-> | Hq]; [|auto].
      intros Hd. apply Hnd1. eapply Z.divide_trans; eassumption.
Qed.

Lemma for_odd_primes_spec (u n0 B : Z) (ps : list Z) :
  forall (bound : Z) (n : Z) (fs : list factor),
    StronglySorted Z.lt ps -> Forall Z.prime ps ->
    Forall (fun p => bound < p <= B) ps -> bound <= B ->
    factored u n0 bound fs n ->
    exists returned n' fs',
      for_odd_primes ps n fs = Done (returned, n', fs')
      /\ factored u n0 B fs' n' /\ (n' | n)
      /\ (if returned : bool then n' = 1
          else forall p, p ∈ ps -> ~ (p | n')).
Proof.
  induction ps as [|p ps IH]; intros bound n fs Hsort Hprime Hrange HB Hf.
  - exists false, n, fs. simpl. split; [reflexivity|].
    split; [eapply factored_weaken; eauto|]. split; [apply Z.divide_refl|].
    intros p Hp. inversion Hp.
  - apply StronglySorted_inv in Hsort as [Hsort Hlt].
    apply Forall_cons in Hprime as [Hp Hprime].
    apply Forall_cons in Hrange as [Hpr Hrange].
    destruct (strip_prime_spec u n0 bound p fs n Hp ltac:(lia) Hf)
      as (n1 & fs1 & Hrun & Hf1 & Hnd1 & Hdiv1).
    simpl. rewrite Hrun. simpl.
    destruct (Z.eqb_spec n1 1) as [->|Hne].
    + exists true, 1, fs1. split; [reflexivity|].
      split; [eapply factored_weaken; [|exact Hf1]; lia|].
      split; [assumption | reflexivity].
    + destruct (IH p n1 fs1) as (r & n' & fs' & Hrun' & Hf' & Hdiv' & Hend);
        auto; [| lia |].
      { rewrite Forall_forall in *. intros x Hx.
        specialize (Hlt x Hx). specialize (Hrange x Hx). lia. }
      exists r, n', fs'. split; [assumption|]. split; [assumption|].
      split; [eapply Z.divide_trans; eassumption|].
      destruct r; [assumption|].
      intros q Hq. apply elem_of_cons in Hq as [-> | Hq]; [|auto].
      intros Hd. apply Hnd1. eapply Z.divide_trans; eassumption.
Qed.

Lemma cofactor_above (bound n : Z) :
  1 < n -> no_prime_upto bound n -> bound < n.
Proof.
  intros Hn Hclean. destruct (exists_prime_divisor n Hn) as (q & Hq & Hd).
  destruct (Z_lt_le_dec bound n); [assumption|]. exfalso.
  apply (Hclean q Hq); [|assumption].
  apply divide_le in Hd; lia.
Qed.

(** What one growth of the sieve adds to the list: ascending primes between
    the old and the new [last_tested]. *)
Lemma sieve_new_primes (stop : Z) (st : Primes) :
  sieve_inv st ->
  exists new,
    odd_primes_list (sieve stop st) = odd_primes_list st ++ new
    /\ StronglySorted Z.lt new /\ Forall Z.prime new
    /\ Forall (fun p => last_tested st < p <= last_tested (sieve stop st)) new.
Proof.
  intros Hinv. pose proof (sieve_inv_preserved stop st Hinv) as Hinv'.
  destruct (sieve_extends stop st) as [new Hnew]. exists new.
  pose proof (inv_sorted _ Hinv') as Hsort. rewrite Hnew in Hsort.
  split; [assumption|]. split; [eapply StronglySorted_app_1_r; eassumption|].
  assert (Hin : forall p, p ∈ new -> Z.prime p /\ 3 <= p <= last_tested (sieve stop st)).
  { intros p Hp. apply (inv_list _ Hinv'). rewrite Hnew, elem_of_app. auto. }
  split; apply Forall_forall; intros p Hp; destruct (Hin p Hp) as [Hprime Hr];
    [assumption|].
  split; [|lia]. destruct (Z_lt_le_dec (last_tested st) p); [assumption|].
  assert (Hold : p ∈ odd_primes_list st)
    by (apply (inv_list st Hinv); split; [assumption | lia]).
  pose proof (StronglySorted_app_1_elem_of _ _ _ p p Hsort Hold Hp). lia.
Qed.

Section FactorizerProofs.

Variable golden_stop : Z -> Z.

(** The one fact about [int(last_tested * phi)] the proofs rest on. *)
Hypothesis golden_grows : forall t, 9 <= t -> t < golden_stop t.

Lemma factor_while_done (fuel m : nat) (n : Z) (fs : list factor)
    (st : Primes) :
  n <= 1 -> factor_while golden_stop fuel m n fs st = Done (n, fs, st).
Proof.
  intros Hn. destruct fuel; simpl;
    (destruct (Z.ltb_spec 1 n); [lia | reflexivity]).
Qed.



End FactorizerProofs.

(** * What a stripped list says about the number *)

Lemma strip_product (n : Z) (pairs : list (Z * Z)) (m : Z) :
  strip n pairs m -> n = product pairs * m.
Proof.
  induction 1 as [n | p e n pairs m Hp He Hnd Hs IH]; simpl.
  - lia.
  - rewrite IH. ring.
Qed.

Lemma strip_entries (n : Z) (pairs : list (Z * Z)) (m : Z) :
  strip n pairs m -> Forall (fun pe => Z.prime pe.1 /\ 1 <= pe.2) pairs.
Proof.
  induction 1 as [n | p e n pairs m Hp He Hnd Hs IH]; constructor; auto.
Qed.






Lemma prime_divides_product (p : Z) (pairs : list (Z * Z)) :
  Z.prime p -> Forall (fun pe => Z.prime pe.1 /\ 1 <= pe.2) pairs ->
  (p | product pairs) -> p ∈ pairs.*1.
Proof.
  intros Hp. induction 1 as [|[q f] pairs [Hq Hf] Hall IH]; simpl in *.
  - intros Hd. apply divide_le in Hd; [|lia]. pose proof (Z.prime_ge_2 p Hp). lia.
  - intros Hd. apply (Z.divide_prime_mul _ _ _ Hp) in Hd as [Hd|Hd].
    + apply (Z.divide_prime_pp _ _ _ Hp Hq) in Hd; [|lia].
      subst q. apply list_elem_of_here.
    + apply list_elem_of_further. auto.
Qed.


(** * Multiplying back *)

Lemma iter_multiply (e : nat) (p n : Z) :
  Nat.iter e (fun n => n * p) n = n * p ^ Z.of_nat e.
Proof.
  induction e as [|e IH].
  - simpl. lia.
  - rewrite Nat.iter_succ, IH, Nat2Z.inj_succ, Z.pow_succ_r by lia. ring.
Qed.




(** * Counting divisors *)









(** * The sieve invariant *)

Lemma prime_odd (x : Z) : Z.prime x -> x <> 2 -> Z.odd x = true.
Proof.
  intros Hp Hne. apply not_divide_2_odd. intros Hd.
  pose proof (Z.prime_ge_2 x Hp).
  apply (prime_proper_divisor x 2 Hp); [lia | assumption].
Qed.

Lemma sieve_inv_table_correct (st : Primes) : sieve_inv st -> table_correct st.
Proof.
  intros Hinv. pose proof (inv_low st Hinv) as Hlow.
  assert (Hlist : forall x, x ∈ odd_primes_list st <->
                            Z.prime x /\ Z.odd x = true /\ x <= last_tested st).
  { intros x. rewrite (inv_list st Hinv x). split.
    - intros [Hp Hr]. split; [assumption | split; [|lia]].
      apply prime_odd; [assumption | lia].
    - intros (Hp & Ho & Hr). split; [assumption|].
      pose proof (Z.prime_ge_2 x Hp).
      assert (x <> 2) by (intros ->; discriminate). lia. }
  split; [|split; [exact (inv_sorted st Hinv) | split; [exact Hlist | split]]].
  - intros x. rewrite (inv_set st Hinv x). split.
    + intros [Hp Hr]. destruct (Z.eq_dec x 2); [left; assumption | right].
      split; [assumption | split; [|assumption]]. apply prime_odd; assumption.
    + intros [-> | (Hp & _ & Hr)]; [|tauto]. split; [apply Z.prime_2 | lia].
  - intros x Hr Hp. apply (inv_set st Hinv). tauto.
  - intros x Hr Hnp. split; intros Hin.
    + apply (inv_set st Hinv) in Hin. tauto.
    + apply (inv_list st Hinv) in Hin. tauto.
Qed.

(** C2: in every state the program can reach by calls of [sieve], the set is
    2 with the odd primes up to [last_tested], the list is those odd primes in
    ascending order, every prime up to [last_tested] is in the table and no
    composite is; and the same holds after one more call of [sieve]. *)
Theorem sieve_invariant (st : Primes) :
  reachable st ->
  table_correct st /\ forall stop, table_correct (sieve stop st).
Proof.
  intros Hreach. split.
  - apply sieve_inv_table_correct, reachable_inv, Hreach.
  - intros stop. apply sieve_inv_table_correct, reachable_inv.
    apply reach_sieve, Hreach.
Qed.

Lemma sieve_invariant_witness :
  reachable (sieve 20 initial)
  /\ table_correct (sieve 20 initial)
  /\ forall stop, table_correct (sieve stop (sieve 20 initial)).
Proof.
  assert (H : reachable (sieve 20 initial)) by (apply reach_sieve, reach_initial).
  split; [exact H|]. apply (sieve_invariant (sieve 20 initial) H).
Defined.

(** * The sieve as a no-op *)

(** C8, as amended: for a stop value that is zero, or whose absolute value is
    at most [last_tested], [sieve] leaves the list, the set and
    [last_tested] as they are. *)
Theorem sieve_noop (stop : Z) (st : Primes) :
  stop = 0 \/ Z.abs stop <= last_tested st -> sieve stop st = st.
Proof.
  intros Hstop. unfold sieve. destruct (Z.eqb_spec stop 0); [reflexivity|].
  apply sieve_while_covered. lia.
Qed.

Lemma sieve_noop_witness :
  (-7 = 0 \/ Z.abs (-7) <= last_tested (sieve 20 initial))
  /\ sieve (-7) (sieve 20 initial) = sieve 20 initial.
Proof.
  assert (H : -7 = 0 \/ Z.abs (-7) <= last_tested (sieve 20 initial))
    by (right; apply Z.leb_le; vm_compute; reflexivity).
  split; [exact H|]. apply (sieve_noop (-7) (sieve 20 initial) H).
Defined.

(** C8, as stated, fails: a negative stop value is sieved up to its absolute
    value.  The state is the one the module leaves after [Primes(20)]. *)
Lemma sieve_negative_stop_counterexample :
  -30 <= 0
  /\ last_tested (sieve 20 initial) = 21
  /\ last_tested (sieve (-30) (sieve 20 initial)) = 31
  /\ odd_primes_list (sieve (-30) (sieve 20 initial))
     = [3; 5; 7; 11; 13; 17; 19; 23; 29; 31]
  /\ sieve (-30) (sieve 20 initial) <> sieve 20 initial.
Proof.
  split; [lia|]. split; [vm_compute; reflexivity|].
  split; [vm_compute; reflexivity|]. split; [vm_compute; reflexivity|].
  intros H. apply (f_equal last_tested) in H. vm_compute in H. discriminate H.
Qed.

(** * The oracle without sieving *)

(** C3: with sieving disabled, [is_irreducible] returns [Maybe] exactly when
    [last_tested] squared is at most [|n|] and no prime of the table divides
    [n]; otherwise it returns a boolean, which is [True] exactly when [|n|] is
    prime. *)
Theorem is_irreducible_no_sieve (st : Primes) (n : Z) :
  reachable st ->
  (fst (is_irreducible n false st) = Maybe <->
     last_tested st * last_tested st <= Z.abs n
     /\ forall p, p ∈ small_primes_set st -> ~ (p | n))
  /\ (forall b, fst (is_irreducible n false st) = Bool b ->
                (b = true <-> Z.prime (Z.abs n))).
Proof.
  intros Hreach. pose proof (reachable_inv st Hreach) as Hinv.
  pose proof (inv_low st Hinv) as Hlow.
  assert (Hdiv : forall p, (p | n) <-> (p | Z.abs n))
    by (intros p; symmetry; apply Z.divide_abs_r).
  assert (H2 : 2 ∈ small_primes_set st)
    by (apply (inv_set st Hinv); split; [apply Z.prime_2 | lia]).
  assert (Hsub : forall p, p ∈ odd_primes_list st -> p ∈ small_primes_set st).
  { intros p Hp. apply (inv_list st Hinv) in Hp. apply (inv_set st Hinv). tauto. }
  unfold is_irreducible. set (m := Z.abs n) in *.
  case_bool_decide as Hin; simpl.
  { split.
    - split; [discriminate|]. intros [_ Hall]. exfalso.
      apply (Hall m Hin), Hdiv, Z.divide_refl.
    - intros b [= <-]. apply (inv_set st Hinv) in Hin. tauto. }
  destruct (Z.leb_spec m (last_tested st)) as [Hle|Hgt]; simpl.
  { split.
    - split; [discriminate|]. intros [Hsq _]. nia.
    - intros b [= <-]. split; [discriminate|]. intros Hp. exfalso.
      apply Hin, (inv_set st Hinv). tauto. }
  destruct (m mod 2 =? 0) eqn:E2; simpl.
  { apply mod_eqb_divide in E2; [|lia]. split.
    - split; [discriminate|]. intros [_ Hall]. exfalso.
      apply (Hall 2 H2), Hdiv, E2.
    - intros b [= <-]. split; [discriminate|]. intros Hp. exfalso.
      apply (prime_proper_divisor m 2 Hp); [lia | assumption]. }
  apply mod_eqb_not_divide in E2; [|lia].
  destruct (existsb _ (odd_primes_list st)) eqn:E; simpl.
  { destruct (proj1 (existsb_divides_true m _ (inv_list_pos st Hinv)) E)
      as (p & Hp & Hd).
    split.
    - split; [discriminate|]. intros [_ Hall]. exfalso.
      apply (Hall p (Hsub p Hp)), Hdiv, Hd.
    - intros b [= <-]. split; [discriminate|]. intros Hpm. exfalso.
      apply (inv_list st Hinv) in Hp.
      apply (prime_proper_divisor m p Hpm); [lia | assumption]. }
  pose proof (proj1 (existsb_divides_false m _ (inv_list_pos st Hinv)) E)
    as Hnone.
  assert (Hclean : no_prime_upto (last_tested st) m).
  { intros q Hq Hqle. destruct (inv_prime_cases st q Hinv Hq Hqle) as [-> | Hq'];
      auto. }
  destruct (Z.ltb_spec m (last_tested st * last_tested st)) as [Hlt|Hge]; simpl.
  { split.
    - split; [discriminate|]. intros [Hsq _]. lia.
    - intros b [= <-]. split; [|reflexivity]. intros _.
      destruct (prime_or_proper_divisor m) as [Hp | (a & Ha & Hda)];
        [lia | assumption |]. exfalso.
      destruct (small_prime_divisor m) as (q & Hq & Hqd & Hqq); [lia | |].
      { intros Hp. exact (prime_proper_divisor m a Hp Ha Hda). }
      pose proof (Z.prime_ge_2 q Hq).
      apply (Hclean q Hq); [nia | assumption]. }
  split.
  - split; [|reflexivity]. intros _. split; [assumption|].
    intros p Hp Hd. apply (inv_set st Hinv) in Hp as [Hp Hple].
    apply (Hclean p Hp Hple), Hdiv, Hd.
  - intros b Hb. discriminate Hb.
Qed.

Lemma is_irreducible_no_sieve_witness :
  reachable (sieve 20 initial)
  /\ (fst (is_irreducible (23 * 23) false (sieve 20 initial)) = Maybe <->
        last_tested (sieve 20 initial) * last_tested (sieve 20 initial)
        <= Z.abs (23 * 23)
        /\ forall p, p ∈ small_primes_set (sieve 20 initial) -> ~ (p | 23 * 23))
  /\ (forall b, fst (is_irreducible (23 * 23) false (sieve 20 initial)) = Bool b ->
                (b = true <-> Z.prime (Z.abs (23 * 23)))).
Proof.
  assert (H : reachable (sieve 20 initial)) by (apply reach_sieve, reach_initial).
  split; [exact H|].
  apply (is_irreducible_no_sieve (sieve 20 initial) (23 * 23) H).
Defined.

(** C10: with sieving disabled [is_prime], [is_irreducible] and
    [is_composite] return the state they were given. *)
Theorem no_sieve_pure (st : Primes) (n : Z) :
  snd (is_prime n false st) = st
  /\ snd (is_irreducible n false st) = st
  /\ snd (is_composite n false st) = st.
Proof.
  assert (Hirr : forall k, snd (is_irreducible k false st) = st).
  { intros k. unfold is_irreducible.
    repeat match goal with
           | |- context [if ?c then _ else _] => destruct c; simpl
           end; reflexivity. }
  assert (Hprime : forall k, snd (is_prime k false st) = st).
  { intros k. unfold is_prime. destruct (k =? 0); [reflexivity | apply Hirr]. }
  split; [apply Hprime | split; [apply Hirr|]].
  unfold is_composite. destruct (is_unit n); [reflexivity|].
  specialize (Hprime n). destruct (is_prime n false st) as [r st'].
  simpl in *. assumption.
Qed.

(** * [sigma] at zero *)

(** For an integer exponent other than 0, [sigma(0, k)] is NaN, as the
    docstring of [sigma] has it for [n = 0]. *)
Lemma sigma_zero_nan (golden_stop : Z -> Z) (fuel : nat) (k : Z)
    (st : Primes) :
  k <> 0 -> sigma golden_stop fuel 0 k st = Done (NaN, st).
Proof.
  intros Hk. unfold sigma. destruct (Z.eqb_spec k 0); [contradiction|].
  reflexivity.
Qed.

(** C6: [sigma(0, 0)] is not NaN.  The test [k == 0] comes before the test
    [n == 0] and hands the call to [d], so the result is [d(0)], infinity, in
    every state and with any fuel. *)
Theorem sigma_zero_zero (golden_stop : Z -> Z) (fuel : nat) (st : Primes) :
  sigma golden_stop fuel 0 0 st = Done (Inf, st)
  /\ sigma golden_stop fuel 0 0 st <> Done (NaN, st).
Proof. split; [reflexivity | discriminate]. Qed.

(** * Registering a multiplicative function *)

(** What [multiplicative] accepts. *)
Lemma multiplicative_accepts (m z : pyval) :
  (exists c, multiplicative m z = Done c)
  <-> (m = VInt (-1) \/ m = VInt 0 \/ m = VInt 1) /\ (z = VInt 0 \/ z = VInf).
Proof.
  unfold multiplicative, py_in. split.
  - intros [c Hc]. split.
    + destruct m as [x| | |]; simpl in *; try discriminate.
      destruct (Z.eqb_spec x (-1)) as [->|]; [tauto|].
      destruct (Z.eqb_spec x 0) as [->|]; [tauto|].
      destruct (Z.eqb_spec x 1) as [->|]; [tauto|]. discriminate.
    + destruct (negb _); [discriminate|].
      destruct z as [x| | |]; simpl in *; try discriminate; [|tauto].
      destruct (Z.eqb_spec x 0) as [->|]; [tauto | discriminate].
  - intros [[-> | [-> | ->]] [-> | ->]]; simpl; eauto.
Qed.

(** C7: the documented convention [zero = float('nan')] is refused: whatever
    [minus1] is, registration raises [ValueError]. *)
Theorem multiplicative_rejects_nan (m : pyval) :
  multiplicative m VNaN = Raise ValueError
  /\ multiplicative (VInt (-1)) VNaN = Raise ValueError.
Proof.
  split; [|reflexivity]. unfold multiplicative.
  destruct (negb (py_in m _)); reflexivity.
Qed.

(** * Factorization and divisor count *)



Section FactorizerClaims.

Variable golden_stop : Z -> Z.

(** The growth step passes [last_tested], as [int(last_tested * phi)] does. *)
Hypothesis golden_grows : forall t, 9 <= t -> t < golden_stop t.


Lemma factor_slow_zero (fuel : nat) (st : Primes) :
  factor_slow golden_stop fuel 0 st = Done (Zero, st).
Proof. reflexivity. Qed.





End FactorizerClaims.

(** ** Instances *)

Lemma reachable_sieve_20 : reachable (sieve 20 initial).
Proof. apply reach_sieve, reach_initial. Defined.





(** ** The assertions of the module's self-test, evaluated on the model *)

Example sieve_20 :
  odd_primes_list (sieve 20 initial) = [3; 5; 7; 11; 13; 17; 19]
  /\ small_primes_set (sieve 20 initial) = {[2; 3; 5; 7; 11; 13; 17; 19]}
  /\ last_tested (sieve 20 initial) = 21.
Proof. split; [reflexivity | split; [|reflexivity]]. vm_compute. reflexivity. Qed.

Example is_irreducible_tests :
  let st := sieve 20 initial in
  fst (is_irreducible 18 false st) = Bool false
  /\ fst (is_irreducible (-19) false st) = Bool true
  /\ fst (is_irreducible 22 false st) = Bool false
  /\ fst (is_irreducible (-25) false st) = Bool false
  /\ fst (is_irreducible 23 false st) = Bool true
  /\ fst (is_irreducible (23 * 23) false st) = Maybe
  /\ fst (is_irreducible 29 true st) = Bool true
  /\ fst (is_prime 0 true st) = Bool true
  /\ fst (is_irreducible 0 true st) = Bool false.
Proof. vm_compute. repeat split. Qed.

Example factor_slow_360 :
  fst <$> factor_slow golden_stop_decimal 10 360 (sieve 20 initial)
  = Done (Factors [Unit 1; Power 2 3; Power 3 2; Power 5 1]).
Proof. vm_compute. reflexivity. Qed.

Example factor_slow_grows_sieve :
  (fun r => (fst r, last_tested (snd r)))
    <$> factor_slow golden_stop_decimal 20 (997 * 997 * 360) (sieve 20 initial)
  = Done (Factors [Unit 1; Power 2 3; Power 3 2; Power 5 1; Power 997 2], 1509).
Proof. vm_compute. reflexivity. Qed.

Example d_360 :
  fst <$> d golden_stop_decimal 10 360 (sieve 20 initial) = Done (Int 24).
Proof. vm_compute. reflexivity. Qed.

Example sigma_28 :
  fst <$> sigma golden_stop_decimal 10 28 1 (sieve 20 initial) = Done (Int 56).
Proof. vm_compute. reflexivity. Qed.

(** * Further properties of the code *)

(** ** [extract_power] *)

(** X1: for [n >= 1] and [p >= 2], [extract_power] returns the exponent [e] and
    the quotient [q] with [n = p^e * q], and [e] is the largest exponent whose
    power of [p] divides [n]. *)
Theorem extract_power_exact (n p : Z) :
  1 <= n -> 2 <= p ->
  exists e q,
    extract_power n p = Done (e, q)
    /\ 0 <= e /\ n = p ^ e * q /\ exactly_divides p e n.
Proof.
  intros Hn Hp.
  destruct (extract_power_spec n p Hp Hn) as (e & q & Hrun & He & Hprod & Hnd & Hq).
  exists e, q. split; [assumption|]. split; [assumption|].
  split; [assumption|]. split.
  - exists q. lia.
  - rewrite Hprod, Z.pow_add_r, Z.pow_1_r by lia. intros Hd.
    apply Z.mul_divide_cancel_l in Hd; [contradiction|].
    apply Z.pow_nonzero; lia.
Qed.

Lemma extract_power_exact_witness :
  1 <= 360 /\ 2 <= 2
  /\ exists e q,
       extract_power 360 2 = Done (e, q)
       /\ 0 <= e /\ 360 = 2 ^ e * q /\ exactly_divides 2 e 360.
Proof.
  assert (H1 : 1 <= 360) by lia. assert (H2 : 2 <= 2) by lia.
  split; [exact H1|]. split; [exact H2|].
  apply (extract_power_exact 360 2 H1 H2).
Defined.

(** X2: [extract_power(0, p)] never returns: for [p <> 0] the loop runs out of
    any fuel, and so does the loop for the divisor 1 on any [n]. *)
Theorem extract_power_diverges (fuel : nat) (e p n : Z) :
  p <> 0 ->
  extract_power_while fuel e 0 p = OutOfFuel
  /\ extract_power_while fuel e n 1 = OutOfFuel
  /\ extract_power 0 p = OutOfFuel
  /\ extract_power n 1 = OutOfFuel.
Proof.
  intros Hp.
  assert (Hunfold : forall fuel e n p,
             extract_power_while fuel e n p
             = if n mod p =? 0
               then match fuel with
                    | O => OutOfFuel
                    | S fuel' => extract_power_while fuel' (e + 1) (n / p) p
                    end
               else Done (e, n))
    by (intros [|?] ? ? ?; reflexivity).
  assert (H0 : forall fuel e, extract_power_while fuel e 0 p = OutOfFuel).
  { clear fuel e. induction fuel as [|fuel IH]; intros e;
      rewrite Hunfold, Z.mod_0_l, Z.eqb_refl by assumption; [reflexivity|].
    rewrite Z.div_0_l by assumption. apply IH. }
  assert (H1 : forall fuel e n, extract_power_while fuel e n 1 = OutOfFuel).
  { clear fuel e n. induction fuel as [|fuel IH]; intros e n;
      rewrite Hunfold, Z.mod_1_r, Z.eqb_refl; [reflexivity|].
    rewrite Z.div_1_r. apply IH. }
  split; [apply H0|]. split; [apply H1|]. unfold extract_power. split.
  - destruct (Z.eqb_spec p 0); [contradiction | apply H0].
  - destruct (Z.eqb_spec 1 0); [discriminate | apply H1].
Qed.

Lemma extract_power_diverges_witness :
  3 <> 0
  /\ extract_power_while 1000 0 0 3 = OutOfFuel
  /\ extract_power_while 1000 0 8 1 = OutOfFuel
  /\ extract_power 0 3 = OutOfFuel
  /\ extract_power 8 1 = OutOfFuel.
Proof.
  assert (H : 3 <> 0) by discriminate.
  split; [exact H|]. apply (extract_power_diverges 1000 0 3 8 H).
Defined.

(** ** [sieve] *)

Lemma sieve_body_set (st : Primes) :
  small_primes_set st ⊆ small_primes_set (sieve_body st).
Proof.
  unfold sieve_body. destruct (negb _); simpl; set_solver.
Qed.

Lemma sieve_while_set (fuel : nat) (stop : Z) (st : Primes) :
  small_primes_set st ⊆ small_primes_set (sieve_while fuel stop st).
Proof.
  revert st. induction fuel as [|fuel IH]; intros st; simpl; [done|].
  destruct (last_tested st <? stop); [|done].
  etrans; [apply sieve_body_set | apply IH].
Qed.

Lemma sieve_while_bound (fuel : nat) (stop : Z) (st : Primes) :
  last_tested (sieve_while fuel stop st) <= Z.max (last_tested st) (stop + 1).
Proof.
  revert st. induction fuel as [|fuel IH]; intros st; simpl; [lia|].
  destruct (Z.ltb_spec (last_tested st) stop); [|lia].
  specialize (IH (sieve_body st)). rewrite sieve_body_last_tested in IH. lia.
Qed.


(** X3: [sieve] only grows the table: the old list is a prefix of the new one,
    the old set is part of the new one, [last_tested] does not go down, and it
    stops at [|stop|] or one past it when it moves. *)
Theorem sieve_grows (stop : Z) (st : Primes) :
  (exists new, odd_primes_list (sieve stop st) = odd_primes_list st ++ new)
  /\ small_primes_set st ⊆ small_primes_set (sieve stop st)
  /\ last_tested st <= last_tested (sieve stop st)
  /\ last_tested (sieve stop st) <= Z.max (last_tested st) (Z.abs stop + 1).
Proof.
  split; [apply sieve_extends|]. split; [|split; [apply sieve_monotone|]].
  - unfold sieve. destruct (stop =? 0); [done | apply sieve_while_set].
  - unfold sieve. destruct (stop =? 0); [lia | apply sieve_while_bound].
Qed.

Lemma sieve_while_compose (s1 s2 : Z) (f1 f2 : nat) (st : Primes) :
  s1 <= s2 ->
  s1 - last_tested st <= Z.of_nat f1 -> s2 - last_tested st <= Z.of_nat f2 ->
  sieve_while f2 s2 (sieve_while f1 s1 st) = sieve_while f2 s2 st.
Proof.
  intros Hs. revert st f2. induction f1 as [|f1 IH]; intros st f2 H1 H2; simpl;
    [reflexivity|].
  destruct (Z.ltb_spec (last_tested st) s1) as [Hlt|Hge]; [|reflexivity].
  destruct f2 as [|f2]; [lia|].
  rewrite IH by (rewrite ?sieve_body_last_tested; lia).
  transitivity (sieve_while f2 s2 (sieve_body st)).
  - apply sieve_while_fuel; [rewrite sieve_body_last_tested; lia | lia].
  - simpl. destruct (Z.ltb_spec (last_tested st) s2); [reflexivity | lia].
Qed.

(** X4: sieving to a bound and then to a larger one gives the state that
    sieving to the larger one at once gives; in particular a repeated call
    changes nothing. *)
Theorem sieve_compose (a b : Z) (st : Primes) :
  Z.abs a <= Z.abs b -> sieve b (sieve a st) = sieve b st.
Proof.
  intros Hab. unfold sieve at 1 3.
  destruct (Z.eqb_spec b 0) as [->|Hb].
  { unfold sieve. destruct (Z.eqb_spec a 0); [reflexivity | lia]. }
  unfold sieve. destruct (Z.eqb_spec a 0) as [->|Ha]; [reflexivity|].
  set (st1 := sieve_while _ (Z.abs a) st).
  assert (Hmono : last_tested st <= last_tested st1)
    by apply sieve_while_monotone.
  rewrite <- (sieve_while_fuel (Z.to_nat (Z.abs b - last_tested st1))
                (Z.to_nat (Z.abs b - last_tested st)) (Z.abs b) st1)
    by lia.
  apply sieve_while_compose; lia.
Qed.

Lemma sieve_compose_witness :
  Z.abs 20 <= Z.abs (-30)
  /\ sieve (-30) (sieve 20 initial) = sieve (-30) initial.
Proof.
  assert (H : Z.abs 20 <= Z.abs (-30)) by (simpl; lia).
  split; [exact H|]. apply (sieve_compose 20 (-30) initial H).
Defined.

(** ** The oracle with sieving *)

Lemma irreducible_with_sieve (st : Primes) (n : Z) :
  reachable st ->
  exists b,
    is_irreducible n true st = (Bool b, sieve (Z.abs n) st)
    /\ (b = true <-> Z.prime (Z.abs n)).
Proof.
  intros Hreach. unfold is_irreducible.
  set (st' := sieve (Z.abs n) st).
  assert (Hinv : sieve_inv st') by (apply reachable_inv, reach_sieve, Hreach).
  pose proof (inv_low st' Hinv) as Hlow.
  assert (Hcover : Z.abs n <= last_tested st').
  { destruct (Z.eq_dec (Z.abs n) 0) as [->|Hne]; [lia|].
    pose proof (sieve_covers (Z.abs n) st Hne) as Hc. fold st' in Hc. lia. }
  exists (bool_decide (Z.abs n ∈ small_primes_set st')). split; [reflexivity|].
  rewrite bool_decide_eq_true, (inv_set st' Hinv). tauto.
Qed.

(** X5: with sieving allowed, [is_irreducible] sieves up to [|n|] and answers
    with a boolean, never [Maybe]: [True] exactly when [|n|] is prime. *)
Theorem is_irreducible_sieve (st : Primes) (n : Z) :
  reachable st ->
  exists b,
    is_irreducible n true st = (Bool b, sieve (Z.abs n) st)
    /\ (b = true <-> Z.prime (Z.abs n))
    /\ Z.abs n <= last_tested (sieve (Z.abs n) st).
Proof.
  intros Hreach.
  destruct (irreducible_with_sieve st n Hreach) as (b & Hrun & Hb).
  exists b. split; [assumption|]. split; [assumption|].
  destruct (Z.eq_dec (Z.abs n) 0) as [->|Hne].
  - pose proof (inv_low _ (reachable_inv _ Hreach)).
    pose proof (sieve_monotone 0 st). lia.
  - pose proof (sieve_covers (Z.abs n) st Hne). lia.
Qed.

Lemma is_irreducible_sieve_witness :
  reachable (sieve 20 initial)
  /\ exists b,
       is_irreducible (-29) true (sieve 20 initial)
       = (Bool b, sieve (Z.abs (-29)) (sieve 20 initial))
       /\ (b = true <-> Z.prime (Z.abs (-29)))
       /\ Z.abs (-29) <= last_tested (sieve (Z.abs (-29)) (sieve 20 initial)).
Proof.
  assert (H : reachable (sieve 20 initial)) by (apply reach_sieve, reach_initial).
  split; [exact H|]. apply (is_irreducible_sieve (sieve 20 initial) (-29) H).
Defined.

Lemma is_unit_spec (n : Z) : is_unit n = true <-> n = -1 \/ n = 1.
Proof.
  unfold is_unit. rewrite bool_decide_eq_true, elem_of_union, !elem_of_singleton.
  tauto.
Qed.

(** X6: with sieving allowed every integer is classified: [is_prime] is
    [True] exactly for 0 and the integers of prime absolute value,
    [is_composite] is [True] exactly for the others except the units, and
    neither answer is [Maybe]. *)
Theorem classification (st : Primes) (n : Z) :
  reachable st ->
  (exists b, fst (is_prime n true st) = Bool b
             /\ (b = true <-> n = 0 \/ Z.prime (Z.abs n)))
  /\ (exists b, fst (is_composite n true st) = Bool b
                /\ (b = true <->
                    n <> 0 /\ Z.abs n <> 1 /\ ~ Z.prime (Z.abs n))).
Proof.
  intros Hreach.
  destruct (irreducible_with_sieve st n Hreach) as (b & Hrun & Hb).
  assert (Hprime : exists b, fst (is_prime n true st) = Bool b
                             /\ (b = true <-> n = 0 \/ Z.prime (Z.abs n))).
  { unfold is_prime. destruct (Z.eqb_spec n 0) as [->|Hn].
    - exists true. split; [reflexivity | tauto].
    - exists b. rewrite Hrun. split; [reflexivity|]. rewrite Hb. tauto. }
  split; [exact Hprime|].
  unfold is_composite. destruct (is_unit n) eqn:Hu.
  - apply is_unit_spec in Hu. exists false. split; [reflexivity|].
    split; [discriminate | lia].
  - assert (Hnu : ~ (n = -1 \/ n = 1)).
    { intros H. apply is_unit_spec in H. congruence. }
    destruct Hprime as (b' & Hrun' & Hb').
    destruct (is_prime n true st) as [r st'] eqn:E. simpl in *. subst r.
    exists (negb b'). split; [destruct b'; reflexivity|].
    rewrite negb_true_iff. split.
    + intros Hf. split; [|split].
      * intros ->. destruct b'; [discriminate|].
        assert (false = true) by (apply Hb'; auto). discriminate.
      * lia.
      * intros Hp. destruct b'; [discriminate|].
        assert (false = true) by (apply Hb'; auto). discriminate.
    + intros (H0 & H1 & Hnp). destruct b'; [|reflexivity].
      destruct (proj1 Hb' eq_refl); contradiction.
Qed.

Lemma classification_witness :
  reachable (sieve 20 initial)
  /\ (exists b, fst (is_prime (-35) true (sieve 20 initial)) = Bool b
                /\ (b = true <-> -35 = 0 \/ Z.prime (Z.abs (-35))))
  /\ (exists b, fst (is_composite (-35) true (sieve 20 initial)) = Bool b
                /\ (b = true <->
                    -35 <> 0 /\ Z.abs (-35) <> 1 /\ ~ Z.prime (Z.abs (-35)))).
Proof.
  assert (H : reachable (sieve 20 initial)) by (apply reach_sieve, reach_initial).
  split; [exact H|]. apply (classification (sieve 20 initial) (-35) H).
Defined.

(** ** [multiply] *)

Lemma multiply_for_done (l : list factor) (n : Z) :
  Forall (fun f => ~ negative_power f) l ->
  multiply_for l n = Done (n * factors_product l).
Proof.
  intros Hall. revert n. induction Hall as [|f l Hf Hall IH]; intros n; simpl.
  - f_equal. lia.
  - destruct f as [u | p e]; simpl in *.
    + rewrite IH. f_equal. ring.
    + destruct (Z.ltb_spec e 0); [lia|]. simpl.
      rewrite IH, iter_multiply, Z2Nat.id by lia. f_equal. ring.
Qed.

Lemma multiply_for_raise (l : list factor) (n : Z) :
  Exists negative_power l -> multiply_for l n = Raise ValueError.
Proof.
  intros Hex. revert n. induction l as [|f l IH]; intros n.
  - inversion Hex.
  - simpl. destruct f as [u | p e]; simpl.
    + apply IH. inversion Hex as [? ? Hneg | ? ? Hneg];
        [destruct Hneg | assumption].
    + destruct (Z.ltb_spec e 0); [reflexivity|]. simpl.
      apply IH. inversion Hex as [? ? Hneg | ? ? Hneg];
        [simpl in Hneg; lia | assumption].
Qed.

(** X7: [multiply] on any list returns the product of its entries, a pair
    [[p, e]] counting as [p^e], when no exponent is negative, and raises
    [ValueError] when one is; the empty list gives 1. *)
Theorem multiply_total (l : list factor) :
  (Forall (fun f => ~ negative_power f) l ->
   multiply (Factors l) = Done (factors_product l))
  /\ (Exists negative_power l -> multiply (Factors l) = Raise ValueError)
  /\ multiply (Factors []) = Done 1.
Proof.
  split; [|split; [|reflexivity]].
  - intros Hall. simpl. rewrite multiply_for_done by assumption.
    f_equal. lia.
  - intros Hex. simpl. apply multiply_for_raise. assumption.
Qed.

Lemma multiply_total_witness :
  Exists negative_power [Unit 1; Power 2 3; Power 3 (-1)]
  /\ multiply (Factors [Unit 1; Power 2 3; Power 3 (-1)]) = Raise ValueError.
Proof.
  assert (H : Exists negative_power [Unit 1; Power 2 3; Power 3 (-1)]).
  { apply Exists_cons_tl, Exists_cons_tl, Exists_cons_hd. simpl. lia. }
  split; [exact H|].
  apply (proj1 (proj2 (multiply_total [Unit 1; Power 2 3; Power 3 (-1)])) H).
Defined.

(** ** Uniqueness of the factorization *)









(** ** More on [factor_slow] *)




(** When every prime divisor of [n] is already in the table, the loops over
    the table finish the factorization and the state is returned as it
    was, whatever the fuel and the growth step. *)
Lemma factor_slow_run_smooth (golden_stop : Z -> Z) (fuel : nat) (n : Z)
    (st : Primes) :
  reachable st -> n <> 0 ->
  (forall q, Z.prime q -> (q | n) -> q <= last_tested st) ->
  exists fs,
    factor_slow_run golden_stop fuel n st = Done (1, Factors fs, st)
    /\ factored (Z.sgn n) (Z.abs n) (last_tested st) fs 1.
Proof.
  intros Hreach Hn Hsmooth.
  pose proof (reachable_inv st Hreach) as Hinv.
  pose proof (inv_low st Hinv) as Hlow.
  unfold factor_slow_run. destruct (Z.eqb_spec n 0) as [|_]; [contradiction|].
  assert (Hu : (if 0 <? n then 1 else -1) = Z.sgn n)
    by (destruct (Z.ltb_spec 0 n); lia).
  rewrite Hu. set (u := Z.sgn n). set (n0 := Z.abs n).
  assert (Hf0 : factored u n0 1 [Unit u] n0).
  { exists []. repeat split; try constructor. unfold n0. lia. }
  destruct (Z.eqb_spec n0 1) as [H1|H1].
  { exists [Unit u]. split; [rewrite H1; reflexivity|].
    apply (factored_weaken u n0 1); [lia|]. rewrite H1 in Hf0 at 2. exact Hf0. }
  destruct (strip_prime_spec u n0 1 2 [Unit u] n0 Z.prime_2 ltac:(lia) Hf0)
    as (n1 & fs1 & Hrun1 & Hf1 & Hnd1 & Hdiv1).
  rewrite Hrun1. simpl.
  destruct (Z.eqb_spec n1 1) as [->|Hne1].
  { exists fs1. split; [reflexivity|].
    apply (factored_weaken u n0 2); [lia | assumption]. }
  destruct (for_odd_primes_spec u n0 (last_tested st) (odd_primes_list st)
              2 n1 fs1)
    as (r & n2 & fs2 & Hrun2 & Hf2 & Hdiv2 & Hend);
    [exact (inv_sorted st Hinv) | | | lia | assumption |].
  { apply Forall_forall. intros p Hp. apply (inv_list st Hinv) in Hp. tauto. }
  { apply Forall_forall. intros p Hp. apply (inv_list st Hinv) in Hp. lia. }
  rewrite Hrun2. simpl. destruct r.
  { subst n2. exists fs2. auto. }
  assert (Hn2 : n2 = 1).
  { assert (1 <= n2) by (destruct Hf2 as (? & ? & ? & ? & ? & ?); assumption).
    destruct (Z.eq_dec n2 1); [assumption|]. exfalso.
    destruct (exists_prime_divisor n2) as (q & Hq & Hqd); [lia|].
    assert (Hqn : (q | n)).
    { apply Z.divide_abs_r. fold n0.
      eapply Z.divide_trans; [exact Hqd|].
      eapply Z.divide_trans; eassumption. }
    destruct (inv_prime_cases st q Hinv Hq (Hsmooth q Hq Hqn)) as [-> | Hin].
    - apply Hnd1. eapply Z.divide_trans; eassumption.
    - exact (Hend q Hin Hqd). }
  subst n2. rewrite factor_while_done by lia. simpl. exists fs2. auto.
Qed.

Section FactorizerExtras.

Variable golden_stop : Z -> Z.

Hypothesis golden_grows : forall t, 9 <= t -> t < golden_stop t.




(** X10: when every prime divisor of [n] is at most [last_tested],
    [factor_slow] returns without growing the sieve: the state is unchanged,
    and no fuel is needed. *)
Theorem factor_slow_smooth (fuel : nat) (n : Z) (st : Primes) :
  reachable st -> n <> 0 ->
  (forall q, Z.prime q -> (q | n) -> q <= last_tested st) ->
  exists fs, factor_slow golden_stop fuel n st = Done (Factors fs, st).
Proof.
  intros Hreach Hn Hsmooth.
  destruct (factor_slow_run_smooth golden_stop fuel n st Hreach Hn Hsmooth)
    as (fs & Hrun & _).
  exists fs. unfold factor_slow. rewrite Hrun. reflexivity.
Qed.


End FactorizerExtras.



Lemma smooth_8 (q : Z) :
  Z.prime q -> (q | 8) -> q <= last_tested (sieve 20 initial).
Proof.
  intros Hq Hd. change 8 with (2 ^ 3) in Hd.
  apply (Z.divide_prime_pp q 2 3 Hq Z.prime_2) in Hd; [|lia]. subst q.
  apply Z.leb_le. vm_compute. reflexivity.
Defined.

Lemma factor_slow_smooth_witness :
  reachable (sieve 20 initial) /\ 8 <> 0
  /\ (forall q, Z.prime q -> (q | 8) -> q <= last_tested (sieve 20 initial))
  /\ exists fs,
       factor_slow golden_stop_decimal 0 8 (sieve 20 initial)
       = Done (Factors fs, sieve 20 initial).
Proof.
  assert (Hn : 8 <> 0) by discriminate.
  split; [exact reachable_sieve_20|]. split; [exact Hn|].
  split; [exact smooth_8|].
  apply (factor_slow_smooth golden_stop_decimal 0 8 (sieve 20 initial)
           reachable_sieve_20 Hn smooth_8).
Defined.


(** ** Multiplicativity of the divisor count *)






(** ** The sum of the powers of the divisors *)














Section DivisorFunctions.

Variable golden_stop : Z -> Z.

Hypothesis golden_grows : forall t, 9 <= t -> t < golden_stop t.







End DivisorFunctions.

(** ** The multiplicative wrapper *)






Section Wrapper.

Variable golden_stop : Z -> Z.

Hypothesis golden_grows : forall t, 9 <= t -> t < golden_stop t.





End Wrapper.

(** ** Counting the integers coprime to a number *)














(** ** [square_free] and [totient] *)



Section Registered.

Variable golden_stop : Z -> Z.

Hypothesis golden_grows : forall t, 9 <= t -> t < golden_stop t.



End Registered.

(** ** [GaussianInt.is_prime] *)

Lemma is_prime_sieve_spec (st : Primes) (n : Z) :
  reachable st ->
  exists b st',
    is_prime n true st = (Bool b, st')
    /\ reachable st'
    /\ (b = true <-> n = 0 \/ Z.prime (Z.abs n)).
Proof.
  intros Hreach. unfold is_prime. destruct (Z.eqb_spec n 0) as [->|Hn].
  - exists true, st. split; [reflexivity|]. split; [assumption | tauto].
  - destruct (irreducible_with_sieve st n Hreach) as (b & Hrun & Hb).
    exists b, (sieve (Z.abs n) st). split; [assumption|].
    split; [apply reach_sieve; assumption|]. rewrite Hb. tauto.
Qed.

Lemma normsq_nonneg (u : GaussianInt) : 0 <= normsq u.
Proof. unfold normsq. rewrite !Z.pow_2_r. nia. Qed.

Lemma gaussian_is_prime_value (u : GaussianInt) (st : Primes) :
  reachable st ->
  exists b st',
    gaussian_is_prime u st = (Bool b, st')
    /\ reachable st'
    /\ (b = true <->
        normsq u = 0 \/ Z.prime (normsq u)
        \/ exists m, 0 <= m /\ m * m = normsq u /\ m mod 4 = 3 /\ Z.prime m).
Proof.
  intros Hreach. pose proof (normsq_nonneg u) as HN.
  unfold gaussian_is_prime. set (N := normsq u) in *.
  destruct (is_prime_sieve_spec st N Hreach) as (b1 & st1 & Hrun1 & Hr1 & Hb1).
  rewrite Hrun1. simpl. rewrite Z.abs_eq in Hb1 by assumption.
  destruct b1.
  { exists true, st1. split; [reflexivity|]. split; [assumption|].
    split; [intros _ | reflexivity]. destruct (proj1 Hb1 eq_refl); auto. }
  assert (HN0 : N <> 0) by (intros H0; assert (false = true) by (apply Hb1; auto);
                            discriminate).
  assert (HNp : ~ Z.prime N) by (intros Hp; assert (false = true)
                                   by (apply Hb1; auto); discriminate).
  assert (Hsqrt : forall m, 0 <= m -> m * m = N -> Z.sqrt N = m)
    by (intros m Hm <-; apply Z.sqrt_square; assumption).
  pose proof (Z.sqrt_nonneg N) as Hs0.
  destruct (Z.eqb_spec (Z.sqrt N * Z.sqrt N) N) as [Hsq|Hsq]; simpl.
  - destruct (Z.eqb_spec (Z.sqrt N mod 4) 3) as [H3|H3].
    + destruct (is_prime_sieve_spec st1 (Z.sqrt N) Hr1)
        as (b2 & st2 & Hrun2 & Hr2 & Hb2).
      rewrite Hrun2. exists b2, st2. split; [reflexivity|].
      split; [assumption|]. rewrite Hb2, Z.abs_eq by assumption. split.
      * intros [H0 | Hp]; [rewrite H0 in Hsq; simpl in Hsq; lia|].
        right. right. exists (Z.sqrt N). auto.
      * intros [H0 | [Hp | (m & Hm & Hmm & _ & Hp)]]; [lia | contradiction |].
        right. rewrite (Hsqrt m Hm Hmm). assumption.
    + exists false, st1. split; [reflexivity|]. split; [assumption|].
      split; [discriminate|].
      intros [H0 | [Hp | (m & Hm & Hmm & Hm3 & _)]]; [lia | contradiction |].
      rewrite (Hsqrt m Hm Hmm) in H3. contradiction.
  - exists false, st1. split; [reflexivity|]. split; [assumption|].
    split; [discriminate|].
    intros [H0 | [Hp | (m & Hm & Hmm & _)]]; [lia | contradiction |].
    rewrite (Hsqrt m Hm Hmm) in Hsq. contradiction.
Qed.

(** X22: [GaussianInt.is_prime] answers with a boolean, [True] exactly when
    the norm square [a^2 + b^2] is 0, or an ordinary prime, or the square of
    an ordinary prime that is 3 modulo 4; it leaves a reachable state. *)
Theorem gaussian_is_prime_spec (u : GaussianInt) (st : Primes) :
  reachable st ->
  exists b st',
    gaussian_is_prime u st = (Bool b, st')
    /\ reachable st'
    /\ (b = true <->
        normsq u = 0 \/ Z.prime (normsq u)
        \/ exists m, 0 <= m /\ m * m = normsq u /\ m mod 4 = 3 /\ Z.prime m).
Proof. apply gaussian_is_prime_value. Qed.

Lemma gaussian_is_prime_spec_witness :
  reachable (sieve 20 initial)
  /\ exists b st',
       gaussian_is_prime (mkGaussianInt 13 84) (sieve 20 initial) = (Bool b, st')
       /\ reachable st'
       /\ (b = true <->
           normsq (mkGaussianInt 13 84) = 0
           \/ Z.prime (normsq (mkGaussianInt 13 84))
           \/ exists m, 0 <= m /\ m * m = normsq (mkGaussianInt 13 84)
                        /\ m mod 4 = 3 /\ Z.prime m).
Proof.
  assert (H : reachable (sieve 20 initial)) by (apply reach_sieve, reach_initial).
  split; [exact H|].
  apply (gaussian_is_prime_spec (mkGaussianInt 13 84) (sieve 20 initial) H).
Defined.

(** X23: the answer of [GaussianInt.is_prime] depends on the norm only: two
    Gaussian integers of the same norm, such as a number, its conjugate, its
    opposite and its associates, get the same answer in any reachable
    states. *)
Theorem gaussian_is_prime_norm (u v : GaussianInt) (st1 st2 : Primes) :
  reachable st1 -> reachable st2 -> normsq u = normsq v ->
  fst (gaussian_is_prime u st1) = fst (gaussian_is_prime v st2).
Proof.
  intros Hr1 Hr2 Hnorm.
  destruct (gaussian_is_prime_value u st1 Hr1) as (b1 & st1' & H1 & _ & Hb1).
  destruct (gaussian_is_prime_value v st2 Hr2) as (b2 & st2' & H2 & _ & Hb2).
  rewrite H1, H2. simpl. f_equal. rewrite <- Hnorm in Hb2.
  destruct b1, b2; try reflexivity.
  - symmetry. apply Hb2, Hb1. reflexivity.
  - apply Hb1, Hb2. reflexivity.
Qed.

Lemma gaussian_is_prime_norm_witness :
  reachable (sieve 20 initial) /\ reachable initial
  /\ normsq (mkGaussianInt 2 (-1)) = normsq (mkGaussianInt 1 2)
  /\ fst (gaussian_is_prime (mkGaussianInt 2 (-1)) (sieve 20 initial))
     = fst (gaussian_is_prime (mkGaussianInt 1 2) initial).
Proof.
  assert (H1 : reachable (sieve 20 initial)) by (apply reach_sieve, reach_initial).
  assert (H3 : normsq (mkGaussianInt 2 (-1)) = normsq (mkGaussianInt 1 2))
    by reflexivity.
  split; [exact H1|]. split; [exact reach_initial|]. split; [exact H3|].
  apply (gaussian_is_prime_norm (mkGaussianInt 2 (-1)) (mkGaussianInt 1 2)
           (sieve 20 initial) initial H1 reach_initial H3).
Defined.

Example gaussian_tests :
  let st := sieve 20 initial in
  fst (gaussian_is_prime (mkGaussianInt 1 1) st) = Bool true
  /\ fst (gaussian_is_prime (mkGaussianInt 2 0) st) = Bool false
  /\ fst (gaussian_is_prime (mkGaussianInt 3 0) st) = Bool true
  /\ fst (gaussian_is_prime (mkGaussianInt 3 5) st) = Bool false
  /\ fst (gaussian_is_prime (mkGaussianInt 4 0) st) = Bool false
  /\ fst (gaussian_is_prime (mkGaussianInt 5 0) st) = Bool false.
Proof. vm_compute. repeat split. Qed.

(** ** [Aliquot.aliquot_sequence] *)



Section AliquotProofs.

Variable golden_stop : Z -> Z.

Hypothesis golden_grows : forall t, 9 <= t -> t < golden_stop t.





End AliquotProofs.

(** X26: on [n = 0] the first term is NaN: [aliquot_sequence] returns
    [[NaN]] only when [max_length] or [largest_prime] cuts it off at once, and
    otherwise raises [TypeError] with the status left at
    [PREMATURE_TERMINATION]. *)
Theorem aliquot_sequence_zero (golden_stop : Z -> Z) (turns fuel : nat)
    (max_length largest largest_prime pmax : Z) (st : Primes) :
  last (odd_primes_list st) = Some pmax ->
  aliquot_sequence golden_stop (S turns) fuel 0 max_length largest
    largest_prime st
  = if max_length <=? 1 then AReturn [NaN] LENGTH_EXCEEDED st
    else if largest_prime <? pmax then AReturn [NaN] SIEVE_OVERFLOW st
    else ARaise TypeError PREMATURE_TERMINATION.
Proof.
  intros Hpmax. unfold aliquot_sequence. rewrite Hpmax. simpl.
  rewrite Hpmax. reflexivity.
Qed.

(** ** Instances of the further properties *)













Lemma aliquot_sequence_zero_witness :
  last (odd_primes_list initial) = Some 7
  /\ aliquot_sequence golden_stop_decimal 1 0 0 50 1000 1000 initial
     = if 50 <=? 1 then AReturn [NaN] LENGTH_EXCEEDED initial
       else if 1000 <? 7 then AReturn [NaN] SIEVE_OVERFLOW initial
       else ARaise TypeError PREMATURE_TERMINATION.
Proof.
  assert (H : last (odd_primes_list initial) = Some 7) by reflexivity.
  split; [exact H|].
  apply (aliquot_sequence_zero golden_stop_decimal 0 0 50 1000 1000 7 initial H).
Defined.

(** ** More assertions of the self-tests, evaluated on the model *)

Example s_tests :
  let st := sieve 20 initial in
  fst <$> s golden_stop_decimal 10 6 st = Done (Int 6)
  /\ fst <$> s golden_stop_decimal 10 28 st = Done (Int 28)
  /\ fst <$> s golden_stop_decimal 10 1 st = Done (Int 0)
  /\ fst <$> s golden_stop_decimal 10 12 st = Done (Int 16)
  /\ fst <$> s golden_stop_decimal 10 220 st = Done (Int 284)
  /\ fst <$> s golden_stop_decimal 10 284 st = Done (Int 220)
  /\ fst <$> s golden_stop_decimal 10 (-1) st = Done (Int 0)
  /\ fst <$> s golden_stop_decimal 10 (-3) st = Done (Int (-1))
  /\ fst <$> s golden_stop_decimal 10 (-6) st = Done (Int (-6)).
Proof. vm_compute. repeat split. Qed.

Example square_free_tests :
  let st := sieve 20 initial in
  map (fun n => (fst <$> square_free golden_stop_decimal 10 n st,
                 fst <$> square_free golden_stop_decimal 10 (- n) st))
    [1; 2; 3; 5; 6; 7; 10; 11; 13; 14; 15; 17; 19; 21; 22; 23]
  = map (fun _ => (Done (VInt 1), Done (VInt 1)))
      [1; 2; 3; 5; 6; 7; 10; 11; 13; 14; 15; 17; 19; 21; 22; 23]
  /\ map (fun n => (fst <$> square_free golden_stop_decimal 10 n st,
                    fst <$> square_free golden_stop_decimal 10 (- n) st))
       [4; 8; 9; 12; 16; 18; 20; 24; 25]
     = map (fun _ => (Done (VInt 0), Done (VInt 0)))
         [4; 8; 9; 12; 16; 18; 20; 24; 25]
  /\ fst <$> square_free golden_stop_decimal 10 0 st = Done (VInt 0).
Proof. vm_compute. repeat split. Qed.

Example totient_tests :
  let st := sieve 20 initial in
  map (fun n => fst <$> totient golden_stop_decimal 10 n st)
    [1; 2; 3; 4; 5; 6; 7; 8; 9; 10; 11; 12; 13; 14; 15; 360; -360; 0]
  = map (fun v => Done (VInt v))
      [1; 1; 2; 2; 4; 2; 6; 4; 6; 4; 10; 4; 12; 6; 8; 96; -96; 0].
Proof. vm_compute. reflexivity. Qed.

Example aliquot_tests :
  aliquot_sequence golden_stop_decimal 50 300 220 50 100000 100000
    (sieve 20 initial)
  = AReturn [Int 284; Int 220; Int 284] PERIODIC
      (sieve 85 (sieve 20 initial))
  /\ (exists st,
        aliquot_sequence golden_stop_decimal 50 300 12 50 100000 100000
          (sieve 20 initial)
        = AReturn [Int 16; Int 15; Int 9; Int 4; Int 3; Int 1; Int 0]
            TERMINATING st).
Proof.
  split; [vm_compute; reflexivity|]. eexists. vm_compute. reflexivity.
Qed.


(** * The growth step in binary floating point *)

(** ** Rounding to a double *)

Section Rounding.

Import SpecFloat.

Lemma digits2_pos_size (p : positive) : digits2_pos p = Pos.size p.
Proof. induction p; simpl; congruence. Qed.

Lemma Zdigits2_log2 (p : positive) :
  Zdigits2 (Z.pos p) = Z.log2 (Z.pos p) + 1.
Proof.
  destruct p; simpl; rewrite ?digits2_pos_size; lia.
Qed.

Lemma Zdigits2_bounds (p : positive) :
  2 ^ (Zdigits2 (Z.pos p) - 1) <= Z.pos p < 2 ^ Zdigits2 (Z.pos p).
Proof.
  rewrite Zdigits2_log2.
  pose proof (Z.log2_spec (Z.pos p) ltac:(lia)) as H.
  replace (Z.log2 (Z.pos p) + 1 - 1) with (Z.log2 (Z.pos p)) by lia.
  replace (Z.log2 (Z.pos p) + 1) with (Z.succ (Z.log2 (Z.pos p))) by lia.
  exact H.
Qed.

Lemma Zdigits2_unique (z j : Z) :
  2 ^ (j - 1) <= z < 2 ^ j -> 1 <= j -> Zdigits2 z = j.
Proof.
  intros Hz Hj.
  assert (0 < 2 ^ (j - 1)) by (apply Z.pow_pos_nonneg; lia).
  destruct z as [|p|p]; try lia.
  rewrite Zdigits2_log2.
  rewrite (Z.log2_unique (Z.pos p) (j - 1)); [lia | lia |].
  replace (Z.succ (j - 1)) with j by lia. exact Hz.
Qed.

Lemma shr_1_m (mrs : shr_record) :
  0 <= shr_m mrs -> shr_m (shr_1 mrs) = shr_m mrs / 2.
Proof.
  destruct mrs as [m r s]. simpl. intros Hm.
  destruct m as [|[p|p|]|p]; simpl; [reflexivity | | | reflexivity | lia].
  - apply (Z.div_unique (Z.pos p~1) 2 (Z.pos p) 1); lia.
  - apply (Z.div_unique (Z.pos p~0) 2 (Z.pos p) 0); lia.
Qed.

Lemma iter_shr_1_m (p : positive) :
  forall mrs, 0 <= shr_m mrs ->
    shr_m (iter_pos shr_1 p mrs) = shr_m mrs / 2 ^ Z.pos p.
Proof.
  assert (Hnn : forall mrs, 0 <= shr_m mrs -> 0 <= shr_m (shr_1 mrs)).
  { intros mrs H. rewrite shr_1_m by assumption. apply Z.div_pos; lia. }
  assert (Hpos : forall q, 0 < 2 ^ Z.pos q)
    by (intros q; apply Z.pow_pos_nonneg; lia).
  induction p as [p IH|p IH|]; intros mrs Hm; simpl.
  - assert (Hpow : 2 ^ Z.pos p~1 = 2 * (2 ^ Z.pos p * 2 ^ Z.pos p)).
    { replace (Z.pos p~1) with (1 + Z.pos p + Z.pos p) by lia.
      rewrite !Z.pow_add_r by lia. lia. }
    pose proof (Hpos p).
    rewrite IH, IH, shr_1_m, Hpow; auto.
    + rewrite !Z.div_div by lia. reflexivity.
    + rewrite IH by auto. apply Z.div_pos; auto.
  - assert (Hpow : 2 ^ Z.pos p~0 = 2 ^ Z.pos p * 2 ^ Z.pos p).
    { replace (Z.pos p~0) with (Z.pos p + Z.pos p) by lia.
      rewrite !Z.pow_add_r by lia. lia. }
    pose proof (Hpos p).
    rewrite IH, IH, Hpow; auto.
    + rewrite !Z.div_div by lia. reflexivity.
    + rewrite IH by auto. apply Z.div_pos; auto.
  - apply shr_1_m. assumption.
Qed.

Lemma shr_spec (mrs : shr_record) (e n : Z) :
  0 <= shr_m mrs ->
  snd (shr mrs e n) = e + Z.max 0 n
  /\ shr_m (fst (shr mrs e n)) = shr_m mrs / 2 ^ Z.max 0 n.
Proof.
  intros Hm. destruct n as [|p|p]; simpl.
  - split; [lia|]. rewrite Z.div_1_r. reflexivity.
  - split; [lia|]. apply iter_shr_1_m. assumption.
  - split; [lia|]. rewrite Z.div_1_r. reflexivity.
Qed.

Lemma round_nearest_even_cases (m : Z) (l : location) :
  round_nearest_even m l = m \/ round_nearest_even m l = m + 1.
Proof.
  destruct l as [|[| |]]; simpl; auto. destruct (Z.even m); auto.
Qed.

Lemma pow2_pos (k : Z) : 0 <= k -> 0 < 2 ^ k.
Proof. intros. apply Z.pow_pos_nonneg; lia. Qed.

(** Rounding a mantissa of 53 bits or more: the result is the mantissa
    shifted right by [k] bits, or one more, and has 53 bits. *)
Lemma binary_round_aux_spec (m : positive) (e : Z) :
  53 <= Zdigits2 (Z.pos m) -> -1074 <= e ->
  exists (m' : positive) (k : Z),
    binary_round_aux Binary64.prec Binary64.emax false (Z.pos m) e loc_Exact
    = (if e + k <=? 971 then S754_finite false m' (e + k)
       else S754_infinity false)
    /\ 2 ^ 52 <= Z.pos m' < 2 ^ 53
    /\ Zdigits2 (Z.pos m) - 53 <= k <= Zdigits2 (Z.pos m) - 52
    /\ Z.pos m' * 2 ^ k <= Z.pos m + 2 ^ k
    /\ Z.pos m < (Z.pos m' + 1) * 2 ^ k.
Proof.
  intros Hd He. pose proof (Zdigits2_bounds m) as Hm.
  set (d := Zdigits2 (Z.pos m)) in *. set (k1 := d - 53).
  assert (Hk1 : 0 <= k1) by (unfold k1; lia).
  pose proof (pow2_pos k1 Hk1) as Hp1.
  assert (Hpow : 2 ^ (d - 1) = 2 ^ k1 * 2 ^ 52).
  { rewrite <- Z.pow_add_r by lia. f_equal. unfold k1. lia. }
  assert (Hpow' : 2 ^ d = 2 ^ k1 * 2 ^ 53).
  { rewrite <- Z.pow_add_r by lia. f_equal. unfold k1. lia. }
  set (q := Z.pos m / 2 ^ k1).
  assert (Hq : 2 ^ 52 <= q < 2 ^ 53).
  { unfold q. split.
    - apply Z.div_le_lower_bound; lia.
    - apply Z.div_lt_upper_bound; lia. }
  assert (Hqm : q * 2 ^ k1 <= Z.pos m < (q + 1) * 2 ^ k1).
  { unfold q. pose proof (Z.div_mod (Z.pos m) (2 ^ k1) ltac:(lia)).
    pose proof (Z.mod_pos_bound (Z.pos m) (2 ^ k1) Hp1). nia. }
  unfold binary_round_aux, shr_fexp. fold d.
  assert (Hf1 : fexp Binary64.prec Binary64.emax (d + e) - e = k1).
  { unfold fexp, emin, Binary64.prec, Binary64.emax, k1. lia. }
  rewrite Hf1.
  destruct (shr_spec (shr_record_of_loc (Z.pos m) loc_Exact) e k1)
    as [He1 Hm1]; [simpl; lia|].
  destruct (shr (shr_record_of_loc (Z.pos m) loc_Exact) e k1)
    as [mrs1 e1]. simpl in He1, Hm1.
  rewrite Z.max_r in He1, Hm1 by lia. fold q in Hm1. rewrite Hm1.
  set (m2 := round_nearest_even q (loc_of_shr_record mrs1)).
  assert (Hm2 : m2 = q \/ m2 = q + 1) by apply round_nearest_even_cases.
  destruct (Z_lt_le_dec m2 (2 ^ 53)) as [Hlt|Hge].
  - (* no carry *)
    assert (Hd2 : Zdigits2 m2 = 53) by (apply Zdigits2_unique; simpl; lia).
    rewrite Hd2.
    assert (Hf2 : fexp Binary64.prec Binary64.emax (53 + e1) - e1 = 0).
    { unfold fexp, emin, Binary64.prec, Binary64.emax. lia. }
    rewrite Hf2. simpl.
    destruct m2 as [|m'|m'] eqn:E; try lia.
    exists m', k1. subst e1.
    split; [reflexivity|]. split; [lia|]. split; [unfold k1; lia|].
    split; nia.
  - (* the rounded mantissa is 2^53 *)
    assert (m2 = 2 ^ 53) by lia.
    assert (Hd2 : Zdigits2 m2 = 54) by (apply Zdigits2_unique; simpl; lia).
    rewrite Hd2.
    assert (Hf2 : fexp Binary64.prec Binary64.emax (54 + e1) - e1 = 1).
    { unfold fexp, emin, Binary64.prec, Binary64.emax. lia. }
    rewrite Hf2. rewrite H. simpl.
    exists 4503599627370496%positive, (k1 + 1). subst e1.
    replace (e + (k1 + 1)) with (e + k1 + 1) by lia.
    split; [reflexivity|]. split; [simpl; lia|]. split; [unfold k1; lia|].
    rewrite Z.pow_add_r by lia.
    change (2 ^ 1) with 2. change (2 ^ 53) with 9007199254740992 in *.
    split; nia.
Qed.

Lemma iter_xO_pow (d m : positive) :
  Z.pos (Pos.iter xO m d) = Z.pos m * 2 ^ Z.pos d.
Proof.
  induction d as [|d IH] using Pos.peano_ind.
  - simpl. lia.
  - rewrite Pos.iter_succ, Pos2Z.inj_xO, IH, Pos2Z.inj_succ, Z.pow_succ_r; lia.
Qed.

(** [float(t)] for [t > 0]: a mantissa of 53 bits that is [t] scaled, or one
    more, unless [t] is beyond the doubles. *)
Lemma of_int_spec (t : Z) :
  0 < t ->
  exists (m1 : positive) (e1 : Z),
    binary_normalize Binary64.prec Binary64.emax t 0 false
    = (if e1 <=? 971 then S754_finite false m1 e1 else S754_infinity false)
    /\ 2 ^ 52 <= Z.pos m1 < 2 ^ 53
    /\ -52 <= e1
    /\ Zdigits2 t - 53 <= e1 <= Zdigits2 t - 52
    /\ Z.pos m1 * 2 ^ (e1 + 52) <= t * 2 ^ 52 + 2 ^ (e1 + 52)
    /\ t * 2 ^ 52 < (Z.pos m1 + 1) * 2 ^ (e1 + 52).
Proof.
  intros Ht. destruct t as [|p|p]; try lia.
  pose proof (Zdigits2_bounds p) as Hp.
  set (d := Zdigits2 (Z.pos p)) in *.
  assert (Hd1 : 1 <= d) by (unfold d; simpl; lia).
  unfold binary_normalize, binary_round.
  change (Z.pos (digits2_pos p)) with d.
  assert (Hf : fexp Binary64.prec Binary64.emax (d + 0) = d - 53).
  { unfold fexp, emin, Binary64.prec, Binary64.emax. lia. }
  rewrite Hf.
  assert (Hal : exists (mz : positive) (c : Z),
             shl_align p 0 (d - 53) = (mz, - c)
             /\ 0 <= c <= 52 /\ Z.pos mz = Z.pos p * 2 ^ c
             /\ Zdigits2 (Z.pos mz) = d + c /\ 53 <= d + c).
  { unfold shl_align. destruct (d - 53) as [|x|x] eqn:E.
    - exists p, 0. replace (d + 0) with d by lia.
      repeat split; try lia; reflexivity.
    - exists p, 0. replace (d + 0) with d by lia.
      repeat split; try lia; reflexivity.
    - exists (Pos.iter xO p x), (Z.pos x).
      assert (Hx : Z.pos x = 53 - d) by lia.
      rewrite iter_xO_pow.
      split; [reflexivity|]. split; [lia|]. split; [reflexivity|].
      split; [|lia].
      rewrite <- iter_xO_pow. apply Zdigits2_unique; [|lia].
      rewrite iter_xO_pow.
      pose proof (pow2_pos (Z.pos x) ltac:(lia)).
      replace (d + Z.pos x - 1) with (d - 1 + Z.pos x) by lia.
      rewrite !Z.pow_add_r by lia. nia. }
  destruct Hal as (mz & c & Hal & Hc & Hmz & Hdz & Hdz53).
  rewrite Hal.
  destruct (binary_round_aux_spec mz (- c)) as (m1 & k & Hr & Hm1 & Hk & Hup & Hlo);
    [lia | lia |].
  rewrite Hdz in Hk.
  exists m1, (- c + k). split; [exact Hr|]. split; [exact Hm1|].
  split; [lia|]. split; [lia|].
  assert (HA : 2 ^ (- c + k + 52) = 2 ^ k * 2 ^ (52 - c)).
  { rewrite <- Z.pow_add_r by lia. f_equal. lia. }
  assert (H52 : 2 ^ 52 = 2 ^ c * 2 ^ (52 - c)).
  { rewrite <- Z.pow_add_r by lia. f_equal. lia. }
  pose proof (pow2_pos (52 - c) ltac:(lia)).
  rewrite HA, H52. clear HA H52 Hm1.
  set (X := 2 ^ (52 - c)) in *. rewrite Hmz in Hup, Hlo.
  set (C := 2 ^ c) in *. set (K := 2 ^ k) in *. split; nia.
Qed.

(** The double [phi]. *)
Lemma phi_value :
  Binary64.phi = S754_finite false 7286977268806824 (-52).
Proof. vm_compute. reflexivity. Qed.

(** [x * phi] for a double [x] with a full mantissa. *)
Lemma mul_phi_spec (m1 : positive) (e1 : Z) :
  2 ^ 52 <= Z.pos m1 < 2 ^ 53 -> -52 <= e1 ->
  exists (m2 : positive) (k : Z),
    SFmul Binary64.prec Binary64.emax (S754_finite false m1 e1) Binary64.phi
    = (if e1 - 52 + k <=? 971 then S754_finite false m2 (e1 - 52 + k)
       else S754_infinity false)
    /\ 2 ^ 52 <= Z.pos m2 < 2 ^ 53
    /\ 52 <= k <= 54
    /\ Z.pos m2 * 2 ^ k <= Z.pos m1 * 7286977268806824 + 2 ^ k
    /\ Z.pos m1 * 7286977268806824 < (Z.pos m2 + 1) * 2 ^ k.
Proof.
  intros Hm1 He1. rewrite phi_value. unfold SFmul.
  change (xorb false false) with false.
  pose proof (Zdigits2_bounds (m1 * 7286977268806824)) as Hd.
  rewrite Pos2Z.inj_mul in Hd.
  set (d := Zdigits2 (Z.pos m1 * 7286977268806824)) in *.
  change (2 ^ 52) with 4503599627370496 in Hm1.
  change (2 ^ 53) with 9007199254740992 in Hm1.
  assert (Hlow : 2 ^ 104 < 2 ^ d).
  { apply Z.le_lt_trans with (Z.pos m1 * 7286977268806824); [|lia].
    change (2 ^ 104) with (4503599627370496 * 4503599627370496). nia. }
  assert (Hhigh : 2 ^ (d - 1) < 2 ^ 106).
  { apply Z.le_lt_trans with (Z.pos m1 * 7286977268806824); [lia|].
    change (2 ^ 106) with (9007199254740992 * 9007199254740992). nia. }
  apply Z.pow_lt_mono_r_iff in Hlow; [|lia|].
  2:{ destruct (Z_lt_le_dec d 0) as [Hneg|]; [|assumption].
      rewrite (Z.pow_neg_r 2 d Hneg) in Hd. lia. }
  apply Z.pow_lt_mono_r_iff in Hhigh; [|lia|lia].
  destruct (binary_round_aux_spec (m1 * 7286977268806824) (e1 + -52))
    as (m2 & k & Hr & Hm2 & Hk & Hup & Hlo).
  { rewrite Pos2Z.inj_mul. fold d. lia. }
  { lia. }
  rewrite Pos2Z.inj_mul in Hk, Hup, Hlo. fold d in Hk.
  exists m2, k. replace (e1 - 52 + k) with (e1 + -52 + k) by lia.
  split; [exact Hr|]. split; [exact Hm2|]. split; [lia|].
  split; assumption.
Qed.

(** [int(x)] on a positive double, with the exponent counted from -104. *)
Lemma to_int_value (m : positive) (e : Z) :
  -104 <= e ->
  Binary64.to_int (S754_finite false m e)
  = Done (Z.pos m * 2 ^ (e + 104) / 2 ^ 104).
Proof.
  intros He. unfold Binary64.to_int, cond_Zopp. simpl. f_equal.
  destruct (Z.leb_spec 0 e).
  - rewrite Z.pow_add_r, Z.mul_assoc by lia.
    rewrite Z.div_mul; [reflexivity|]. pose proof (pow2_pos 104). lia.
  - assert (H104 : 2 ^ 104 = 2 ^ (- e) * 2 ^ (e + 104)).
    { rewrite <- Z.pow_add_r by lia. f_equal. lia. }
    rewrite H104.
    rewrite Z.div_mul_cancel_r; [reflexivity| |];
      [pose proof (pow2_pos (- e)) | pose proof (pow2_pos (e + 104))]; lia.
Qed.

(** [int(t * phi)] step by step: the mantissas and exponents of [float(t)]
    and of the product, and where [OverflowError] is raised. *)
Lemma golden_stop_detail (t : Z) :
  1 <= t ->
  exists (m1 : positive) (e1 : Z) (m2 : positive) (k : Z),
    Binary64.golden_stop t
    = (if e1 <=? 971 then
         if e1 - 52 + k <=? 971 then
           Done (Z.pos m2 * 2 ^ (e1 + 52 + k) / 2 ^ 104)
         else Raise OverflowError
       else Raise OverflowError)
    /\ (2 ^ 52 <= Z.pos m1 < 2 ^ 53 /\ -52 <= e1
        /\ Zdigits2 t - 53 <= e1 <= Zdigits2 t - 52
        /\ Z.pos m1 * 2 ^ (e1 + 52) <= t * 2 ^ 52 + 2 ^ (e1 + 52)
        /\ t * 2 ^ 52 < (Z.pos m1 + 1) * 2 ^ (e1 + 52))
    /\ (2 ^ 52 <= Z.pos m2 < 2 ^ 53 /\ 52 <= k <= 54
        /\ Z.pos m2 * 2 ^ k <= Z.pos m1 * 7286977268806824 + 2 ^ k
        /\ Z.pos m1 * 7286977268806824 < (Z.pos m2 + 1) * 2 ^ k).
Proof.
  intros Ht.
  destruct (of_int_spec t ltac:(lia)) as (m1 & e1 & Hx & Hm1 & He1 & Hrest).
  destruct (mul_phi_spec m1 e1 Hm1 He1) as (m2 & k & Hy & Hm2 & Hk & Hrest2).
  exists m1, e1, m2, k. split; [|tauto].
  unfold Binary64.golden_stop, Binary64.of_int. rewrite Hx.
  destruct (e1 <=? 971); [|reflexivity].
  change (mret ?x ≫= ?f) with (f x). cbv beta. rewrite Hy.
  destruct (e1 - 52 + k <=? 971); [|reflexivity].
  rewrite to_int_value by lia.
  replace (e1 - 52 + k + 104) with (e1 + 52 + k) by lia. reflexivity.
Qed.

(** The growth step passes [last_tested] whenever it returns, and what it
    returns is a double. *)
Lemma golden_stop_grows (t s : Z) :
  2 <= t -> Binary64.golden_stop t = Done s -> t < s < 2 ^ 1024.
Proof.
  intros Ht Hs.
  destruct (golden_stop_detail t ltac:(lia))
    as (m1 & e1 & m2 & k & Hrun & (Hm1 & He1 & _ & Hup1 & Hlo1)
        & (Hm2 & Hk & Hup2 & Hlo2)).
  rewrite Hrun in Hs.
  destruct (Z.leb_spec e1 971) as [He1'|]; [|discriminate].
  destruct (Z.leb_spec (e1 - 52 + k) 971) as [He2|]; [|discriminate].
  injection Hs as Hs.
  pose proof (pow2_pos (e1 + 52) ltac:(lia)) as HA.
  pose proof (pow2_pos k ltac:(lia)) as HK.
  assert (HW : 2 ^ (e1 + 52 + k) = 2 ^ k * 2 ^ (e1 + 52)).
  { rewrite <- Z.pow_add_r by lia. f_equal. lia. }
  assert (HK54 : 2 ^ k <= 2 ^ 54) by (apply Z.pow_le_mono_r; lia).
  assert (HW' : 2 ^ (e1 + 52 + k) <= 2 ^ 1075)
    by (apply Z.pow_le_mono_r; lia).
  pose proof (Z.div_mod (Z.pos m2 * 2 ^ (e1 + 52 + k)) (2 ^ 104)
                ltac:(pose proof (pow2_pos 104); lia)) as Hdiv.
  pose proof (Z.mod_pos_bound (Z.pos m2 * 2 ^ (e1 + 52 + k)) (2 ^ 104)
                (pow2_pos 104 ltac:(lia))) as Hmod.
  rewrite Hs in Hdiv.
  set (Y := Z.pos m2 * 2 ^ (e1 + 52 + k)) in *.
  assert (HY : Z.pos m1 * 2 ^ (e1 + 52) * 7286977268806824
               < Y + 2 ^ (e1 + 52 + k)).
  { unfold Y. rewrite HW. nia. }
  assert (HY' : Y < 2 ^ 53 * 2 ^ 1075).
  { unfold Y. pose proof (pow2_pos (e1 + 52 + k) ltac:(lia)). nia. }
  assert (HWA : 2 ^ (e1 + 52 + k) <= 2 ^ 54 * 2 ^ (e1 + 52)).
  { rewrite HW. nia. }
  assert (HX : 2 ^ 52 * 2 ^ (e1 + 52) <= Z.pos m1 * 2 ^ (e1 + 52)) by nia.
  assert (Hlo1' : t * 2 ^ 52 < Z.pos m1 * 2 ^ (e1 + 52) + 2 ^ (e1 + 52))
    by lia.
  clear Hlo1.
  set (X := Z.pos m1 * 2 ^ (e1 + 52)) in *.
  set (A := 2 ^ (e1 + 52)) in *. set (W := 2 ^ (e1 + 52 + k)) in *.
  clearbody X A W Y. clear Hrun Hup2 Hlo2 HK54 HW HW' HK.
  split.
  - change (2 ^ 52) with 4503599627370496 in *.
    change (2 ^ 54) with 18014398509481984 in *.
    change (2 ^ 104) with 20282409603651670423947251286016 in *.
    lia.
  - assert (H1128 : 2 ^ 53 * 2 ^ 1075 = 2 ^ 1024 * 2 ^ 104)
      by (rewrite <- !Z.pow_add_r by lia; reflexivity).
    rewrite H1128 in HY'. pose proof (pow2_pos 104 ltac:(lia)).
    set (P := 2 ^ 104) in *. clearbody P. nia.
Qed.

(** Below [2^1023] the growth step returns. *)
Lemma golden_stop_returns (t : Z) :
  1 <= t < 2 ^ 1023 -> exists s, Binary64.golden_stop t = Done s.
Proof.
  intros Ht.
  destruct (golden_stop_detail t ltac:(lia))
    as (m1 & e1 & m2 & k & Hrun & (Hm1 & He1 & Hd & Hup1 & Hlo1)
        & (Hm2 & Hk & Hup2 & Hlo2)).
  rewrite Hrun.
  destruct t as [|p|p]; try lia.
  pose proof (Zdigits2_bounds p) as Hp.
  assert (Hdig : Zdigits2 (Z.pos p) - 1 < 1023).
  { apply (Z.pow_lt_mono_r_iff 2); lia. }
  destruct (Z.leb_spec e1 971) as [_|]; [|lia].
  pose proof (pow2_pos (e1 + 52) ltac:(lia)) as HA.
  pose proof (pow2_pos k ltac:(lia)) as HK.
  assert (HW : 2 ^ (e1 + 52 + k) = 2 ^ k * 2 ^ (e1 + 52)).
  { rewrite <- Z.pow_add_r by lia. f_equal. lia. }
  assert (HWX : (2 ^ 52 - 1) * 2 ^ (e1 + 52 + k)
                <= Z.pos m1 * 2 ^ (e1 + 52) * 7286977268806824).
  { rewrite HW. nia. }
  assert (HX : 2 ^ 52 * 2 ^ (e1 + 52) <= Z.pos m1 * 2 ^ (e1 + 52)) by nia.
  clear Hlo1.
  assert (Hlt : 2 ^ (e1 + 52 + k) < 2 ^ 1076).
  { replace (2 ^ 1076) with (2 ^ 53 * 2 ^ 1023)
      by (rewrite <- Z.pow_add_r by lia; reflexivity).
    set (X := Z.pos m1 * 2 ^ (e1 + 52)) in *.
    set (A := 2 ^ (e1 + 52)) in *. set (W := 2 ^ (e1 + 52 + k)) in *.
    set (P := 2 ^ 1023) in *.
    clearbody X A W P. clear Hrun Hup2 Hlo2 HW HK Hp.
    change (2 ^ 52) with 4503599627370496 in *.
    change (2 ^ 53) with 9007199254740992 in *.
    lia. }
  apply Z.pow_lt_mono_r_iff in Hlt; [|lia|lia].
  destruct (Z.leb_spec (e1 - 52 + k) 971); [eauto | lia].
Qed.

(** The growth step returns or raises [OverflowError], nothing else. *)
Lemma golden_stop_outcome (t : Z) :
  1 <= t ->
  (exists s, Binary64.golden_stop t = Done s)
  \/ Binary64.golden_stop t = Raise OverflowError.
Proof.
  intros Ht.
  destruct (golden_stop_detail t Ht) as (m1 & e1 & m2 & k & -> & _).
  destruct (e1 <=? 971); [|auto].
  destruct (e1 - 52 + k <=? 971); eauto.
Qed.

End Rounding.

Example golden_stop_tests :
  map Binary64.golden_stop
    [9; 21; 33; 1000; 2 ^ 60; 10 ^ 17 + 1; 123456789012345678901234567890;
     2 ^ 1023; 2 ^ 1024 - 2 ^ 970; 2 ^ 1024]
  = [Done 14; Done 33; Done 53; Done 1618; Done 1865466180814546944;
     Done 161803398874989504; Done 199757280763899871219215761408;
     Done (7286977268806824 * 2 ^ 971); Raise OverflowError;
     Raise OverflowError].
Proof. vm_compute. reflexivity. Qed.

(** ** [factor_slow] with the product in doubles *)

Lemma sieve_last_tested_bound (stop : Z) (st : Primes) :
  last_tested (sieve stop st) <= Z.max (last_tested st) (Z.abs stop + 1).
Proof.
  unfold sieve. destruct (stop =? 0); [lia | apply sieve_while_bound].
Qed.

Lemma float_while_done (fuel m : nat) (n : Z) (fs : list factor)
    (st : Primes) :
  n <= 1 -> Binary64.factor_while fuel m n fs st = Done (n, fs, st).
Proof.
  intros Hn. destruct fuel; simpl;
    (destruct (Z.ltb_spec 1 n); [lia | reflexivity]).
Qed.

(** The sieve is below every bound on the primes of a cofactor it has not
    reached. *)
Lemma below_prime_bound (bound n B : Z) :
  1 < n -> no_prime_upto bound n ->
  (forall q, Z.prime q -> (q | n) -> q <= B) -> bound < B.
Proof.
  intros Hn Hclean HB. destruct (exists_prime_divisor n Hn) as (q & Hq & Hd).
  specialize (HB q Hq Hd). destruct (Z_lt_le_dec bound q); [lia|].
  exfalso. exact (Hclean q Hq ltac:(lia) Hd).
Qed.

(** One turn of the loop: the growth step raises, or the sieve grows, below
    [2^1024], and the new primes are taken out of the cofactor. *)
Lemma float_while_step (u n0 : Z) (fuel m : nat) (n : Z) (fs : list factor)
    (st : Primes) :
  reachable st -> m = length (odd_primes_list st) ->
  factored u n0 (last_tested st) fs n ->
  no_prime_upto (last_tested st) n -> 1 < n ->
  match Binary64.golden_stop (last_tested st) with
  | Done stop =>
      exists m' n' fs',
        Binary64.factor_while (S fuel) m n fs st
        = Binary64.factor_while fuel m' n' fs' (sieve stop st)
        /\ reachable (sieve stop st)
        /\ last_tested st < last_tested (sieve stop st) <= 2 ^ 1024
        /\ factored u n0 (last_tested (sieve stop st)) fs' n'
        /\ (n' | n)
        /\ (n' = 1 \/ (m' = length (odd_primes_list (sieve stop st))
                       /\ no_prime_upto (last_tested (sieve stop st)) n'))
  | Raise e => Binary64.factor_while (S fuel) m n fs st = Raise e
  | OutOfFuel => Binary64.factor_while (S fuel) m n fs st = OutOfFuel
  end.
Proof.
  intros Hreach Hm Hf Hclean Hn.
  pose proof (reachable_inv st Hreach) as Hinv.
  pose proof (inv_low st Hinv) as Hlow.
  cbn [Binary64.factor_while]. destruct (Z.ltb_spec 1 n); [|lia].
  destruct (Binary64.golden_stop (last_tested st)) as [stop| |] eqn:Hstop;
    [|reflexivity|reflexivity].
  change (Done stop ≫= ?f) with (f stop). cbv beta zeta.
  destruct (golden_stop_grows (last_tested st) stop ltac:(lia) Hstop)
    as [Hgrow Hdouble].
  set (st1 := sieve stop st).
  assert (Hreach1 : reachable st1) by (apply reach_sieve; assumption).
  pose proof (reachable_inv st1 Hreach1) as Hinv1.
  assert (Hlt1 : last_tested st < last_tested st1 <= 2 ^ 1024).
  { pose proof (sieve_covers stop st ltac:(lia)) as Hc.
    pose proof (sieve_last_tested_bound stop st) as Hb.
    fold st1 in Hc, Hb. lia. }
  destruct (sieve_new_primes stop st Hinv)
    as (new & Hnew & Hsort & Hprime & Hrange).
  fold st1 in Hnew, Hrange. rewrite Hnew, Hm, drop_app_length.
  destruct (while_new_primes_spec u n0 (last_tested st1) new
              (last_tested st) (length (odd_primes_list st)) n fs)
    as (m' & n' & fs' & Hrun & Hf' & Hdiv & Hend); auto; [lia|].
  rewrite Hrun. exists m', n', fs'.
  split; [reflexivity|]. split; [assumption|]. split; [assumption|].
  split; [assumption|]. split; [assumption|].
  destruct Hend as [-> | [Hm' Hall]]; [left; reflexivity | right].
  split; [rewrite length_app; assumption|].
  intros q Hq Hqle Hqd.
  destruct (Z_le_gt_dec q (last_tested st)).
  - apply (Hclean q Hq); [assumption|].
    eapply Z.divide_trans; eassumption.
  - apply (Hall q); [|assumption].
    assert (Hin : q ∈ odd_primes_list st1)
      by (apply (inv_list st1 Hinv1); split; [assumption | lia]).
    rewrite Hnew, elem_of_app in Hin. destruct Hin as [Hin|Hin];
      [|assumption].
    apply (inv_list st Hinv) in Hin. lia.
Qed.

(** The loop with the product in doubles: when it returns, the cofactor is 1
    and the sieve has stayed below [2^1024]; and it returns when the primes
    that divide the cofactor it starts from are at most [2^1023]. *)
Lemma float_while_spec (u n0 : Z) (fuel : nat) :
  forall (m : nat) (n : Z) (fs : list factor) (st : Primes),
    reachable st -> m = length (odd_primes_list st) ->
    factored u n0 (last_tested st) fs n ->
    no_prime_upto (last_tested st) n ->
    (forall r, Binary64.factor_while fuel m n fs st = Done r ->
       exists fs' st',
         r = (1, fs', st')
         /\ factored u n0 (last_tested st') fs' 1 /\ reachable st'
         /\ last_tested st' <= Z.max (last_tested st) (2 ^ 1024))
    /\ ((forall q, Z.prime q -> (q | n) -> q <= 2 ^ 1023) ->
        n - last_tested st <= Z.of_nat fuel ->
        exists r, Binary64.factor_while fuel m n fs st = Done r).
Proof.
  induction fuel as [|fuel IH]; intros m n fs st Hreach Hm Hf Hclean;
    assert (Hn1 : 1 <= n)
      by (destruct Hf as (? & ? & ? & ? & ? & ?); assumption);
    destruct (Z_le_gt_dec n 1) as [Hle|Hgt].
  - assert (n = 1) by lia. subst n. rewrite float_while_done by lia.
    split; [|eauto]. intros r [= <-]. exists fs, st. repeat split; auto; lia.
  - split.
    + simpl. destruct (Z.ltb_spec 1 n); [discriminate | lia].
    + intros _ Hfuel.
      pose proof (cofactor_above _ n ltac:(lia) Hclean). lia.
  - assert (n = 1) by lia. subst n. rewrite float_while_done by lia.
    split; [|eauto]. intros r [= <-]. exists fs, st. repeat split; auto; lia.
  - pose proof (cofactor_above _ n ltac:(lia) Hclean) as Habove.
    pose proof (inv_low st (reachable_inv st Hreach)) as Hlow.
    pose proof (float_while_step u n0 fuel m n fs st Hreach Hm Hf Hclean
                  ltac:(lia)) as Hstep.
    destruct (Binary64.golden_stop (last_tested st)) as [stop| |] eqn:Hstop.
    + destruct Hstep
        as (m' & n' & fs' & -> & Hreach1 & Hlt1 & Hf' & Hdiv & Hend).
      destruct Hend as [-> | [Hm' Hclean']].
      * rewrite float_while_done by lia. split; [|eauto].
        intros r [= <-]. exists fs', (sieve stop st).
        repeat split; auto; lia.
      * destruct (IH m' n' fs' (sieve stop st) Hreach1 Hm' Hf' Hclean')
          as [Hpart Htotal].
        split.
        -- intros r Hr. destruct (Hpart r Hr) as (fs2 & st2 & ? & ? & ? & ?).
           exists fs2, st2. repeat split; auto; lia.
        -- intros Hbound Hfuel. apply Htotal.
           ++ intros q Hq Hqd. apply Hbound; [assumption|].
              eapply Z.divide_trans; eassumption.
           ++ apply divide_le in Hdiv; lia.
    + rewrite Hstep. split; [discriminate|]. intros Hbound _.
      pose proof (below_prime_bound _ n _ ltac:(lia) Hclean Hbound).
      destruct (golden_stop_returns (last_tested st) ltac:(lia)) as [s Hs].
      congruence.
    + rewrite Hstep. split; [discriminate|]. intros Hbound _.
      pose proof (below_prime_bound _ n _ ltac:(lia) Hclean Hbound).
      destruct (golden_stop_returns (last_tested st) ltac:(lia)) as [s Hs].
      congruence.
Qed.

(** [factor_slow] up to its last loop: it has returned with cofactor 1, or
    it enters the loop that grows the sieve with the invariant in place. *)
Lemma float_run_prefix (fuel : nat) (n : Z) (st : Primes) :
  reachable st -> n <> 0 ->
  (exists fs,
     Binary64.factor_slow_run fuel n st = Done (1, Factors fs, st)
     /\ factored (Z.sgn n) (Z.abs n) (last_tested st) fs 1)
  \/ (exists n2 fs2,
        Binary64.factor_slow_run fuel n st
        = ('(n, factors, st) ←
             Binary64.factor_while fuel (length (odd_primes_list st)) n2 fs2 st;
           mret (n, Factors factors, st))
        /\ factored (Z.sgn n) (Z.abs n) (last_tested st) fs2 n2
        /\ no_prime_upto (last_tested st) n2
        /\ (n2 | Z.abs n)).
Proof.
  intros Hreach Hn.
  pose proof (reachable_inv st Hreach) as Hinv.
  pose proof (inv_low st Hinv) as Hlow.
  unfold Binary64.factor_slow_run.
  destruct (Z.eqb_spec n 0) as [|_]; [contradiction|].
  assert (Hu : (if 0 <? n then 1 else -1) = Z.sgn n)
    by (destruct (Z.ltb_spec 0 n); lia).
  rewrite Hu. set (u := Z.sgn n). set (n0 := Z.abs n).
  assert (Hf0 : factored u n0 1 [Unit u] n0).
  { exists []. repeat split; try constructor. unfold n0. lia. }
  destruct (Z.eqb_spec n0 1) as [H1|H1].
  { left. exists [Unit u]. split; [rewrite H1; reflexivity|].
    apply (factored_weaken u n0 1); [lia|]. rewrite H1 in Hf0 at 2. exact Hf0. }
  destruct (strip_prime_spec u n0 1 2 [Unit u] n0 Z.prime_2 ltac:(lia) Hf0)
    as (n1 & fs1 & Hrun1 & Hf1 & Hnd1 & Hdiv1).
  rewrite Hrun1. simpl.
  destruct (Z.eqb_spec n1 1) as [->|Hne1].
  { left. exists fs1. split; [reflexivity|].
    apply (factored_weaken u n0 2); [lia | assumption]. }
  destruct (for_odd_primes_spec u n0 (last_tested st) (odd_primes_list st)
              2 n1 fs1)
    as (r & n2 & fs2 & Hrun2 & Hf2 & Hdiv2 & Hend);
    [exact (inv_sorted st Hinv) | | | lia | assumption |].
  { apply Forall_forall. intros p Hp. apply (inv_list st Hinv) in Hp. tauto. }
  { apply Forall_forall. intros p Hp. apply (inv_list st Hinv) in Hp. lia. }
  rewrite Hrun2. simpl. destruct r.
  { subst n2. left. exists fs2. auto. }
  right. exists n2, fs2. split; [reflexivity|]. split; [assumption|]. split.
  - intros q Hq Hle Hd.
    destruct (inv_prime_cases st q Hinv Hq Hle) as [-> | Hin].
    + apply Hnd1. eapply Z.divide_trans; eassumption.
    + exact (Hend q Hin Hd).
  - eapply Z.divide_trans; eassumption.
Qed.

(** [factor_slow] with the product in doubles: when it returns, the cofactor
    is 1, the list satisfies the invariant and the sieve has stayed below
    [2^1024]; and it returns when the primes that divide [n] are at most
    [2^1023]. *)
Lemma float_run_spec (fuel : nat) (n : Z) (st : Primes) :
  reachable st -> n <> 0 ->
  (forall r, Binary64.factor_slow_run fuel n st = Done r ->
     exists fs st',
       r = (1, Factors fs, st')
       /\ factored (Z.sgn n) (Z.abs n) (last_tested st') fs 1
       /\ reachable st'
       /\ last_tested st' <= Z.max (last_tested st) (2 ^ 1024))
  /\ ((forall q, Z.prime q -> (q | n) -> q <= 2 ^ 1023) ->
      (Z.to_nat (Z.abs n) <= fuel)%nat ->
      exists r, Binary64.factor_slow_run fuel n st = Done r).
Proof.
  intros Hreach Hn.
  pose proof (inv_low st (reachable_inv st Hreach)) as Hlow.
  destruct (float_run_prefix fuel n st Hreach Hn)
    as [(fs & -> & Hf) | (n2 & fs2 & -> & Hf & Hclean & Hdiv)].
  - split; [|eauto]. intros r [= <-]. exists fs, st. repeat split; auto; lia.
  - destruct (float_while_spec (Z.sgn n) (Z.abs n) fuel
                (length (odd_primes_list st)) n2 fs2 st Hreach eq_refl Hf Hclean)
      as [Hpart Htotal].
    split.
    + intros r Hr.
      destruct (Binary64.factor_while fuel _ n2 fs2 st) as [[[c fs'] st']| |]
        eqn:Hrun; try discriminate.
      destruct (Hpart _ eq_refl) as (fs3 & st3 & [= -> -> ->] & ? & ? & ?).
      injection Hr as <-. exists fs3, st3. auto.
    + intros Hbound Hfuel.
      destruct Htotal as [[[c fs'] st'] ->].
      * intros q Hq Hqd. apply Hbound; [assumption|].
        apply Z.divide_abs_r. eapply Z.divide_trans; eassumption.
      * apply divide_le in Hdiv; lia.
      * simpl. eauto.
Qed.

Lemma factors_product_pairs (pairs : list (Z * Z)) :
  factors_product (map pair_factor pairs) = product pairs.
Proof.
  induction pairs as [|[p e] pairs IH]; simpl; [reflexivity|].
  rewrite IH. reflexivity.
Qed.

(** A prime above the bound of the invariant is still in the cofactor. *)
Lemma factored_keeps_prime (u n0 bound : Z) (fs : list factor) (n p : Z) :
  factored u n0 bound fs n -> Z.prime p -> (p | n0) -> bound < p -> (p | n).
Proof.
  intros (pairs & _ & Hs & _ & Hbound & _) Hp Hd Hlt.
  rewrite (strip_product _ _ _ Hs) in Hd.
  apply (Z.divide_prime_mul _ _ _ Hp) in Hd as [Hd|Hd]; [|assumption].
  apply prime_divides_product in Hd;
    [|assumption | exact (strip_entries _ _ _ Hs)].
  apply list_elem_of_fmap in Hd as ([q e] & -> & Hin).
  rewrite Forall_forall in Hbound. specialize (Hbound _ Hin). simpl in *. lia.
Qed.

(** A prime factor beyond the doubles is never found: the run does not
    return. *)
Lemma float_run_beyond (fuel : nat) (n p : Z) (st : Primes) :
  reachable st -> n <> 0 -> Z.prime p -> (p | n) ->
  Z.max (last_tested st) (2 ^ 1024) < p ->
  forall r, Binary64.factor_slow_run fuel n st <> Done r.
Proof.
  intros Hreach Hn Hp Hd Hlt r Hr. pose proof (Z.prime_ge_2 p Hp) as Hp2.
  destruct (float_run_spec fuel n st Hreach Hn) as [Hpart _].
  destruct (Hpart r Hr) as (fs & st' & _ & Hf & _ & Hb).
  apply (factored_keeps_prime _ _ _ _ _ p) in Hf; [|assumption| |lia].
  - apply divide_le in Hf; lia.
  - apply Z.divide_abs_r. assumption.
Qed.

(** With a prime beyond the doubles in the cofactor, the loop ends in
    [OverflowError], after at most [2^1024] turns. *)
Lemma float_while_raises (u n0 p : Z) (fuel : nat) :
  forall (m : nat) (n : Z) (fs : list factor) (st : Primes),
    reachable st -> m = length (odd_primes_list st) ->
    factored u n0 (last_tested st) fs n ->
    no_prime_upto (last_tested st) n ->
    Z.prime p -> (p | n0) -> Z.max (last_tested st) (2 ^ 1024) < p ->
    (1 <= fuel)%nat -> 2 ^ 1024 + 1 - last_tested st <= Z.of_nat fuel ->
    Binary64.factor_while fuel m n fs st = Raise OverflowError.
Proof.
  induction fuel as [|fuel IH];
    intros m n fs st Hreach Hm Hf Hclean Hp Hd Hlt H1 Hfuel; [lia|].
  pose proof (Z.prime_ge_2 p Hp) as Hp2.
  pose proof (inv_low st (reachable_inv st Hreach)) as Hlow.
  assert (Hn : 1 < n).
  { pose proof (factored_keeps_prime _ _ _ _ _ p Hf Hp Hd ltac:(lia)) as Hpn.
    destruct Hf as (? & ? & ? & ? & ? & ?). apply divide_le in Hpn; lia. }
  pose proof (float_while_step u n0 fuel m n fs st Hreach Hm Hf Hclean Hn)
    as Hstep.
  destruct (golden_stop_outcome (last_tested st) ltac:(lia)) as [[s Hs]|Hs];
    rewrite Hs in Hstep; [|exact Hstep].
  destruct Hstep as (m' & n' & fs' & -> & Hreach1 & Hlt1 & Hf' & Hdiv & Hend).
  assert (Hpn' : (p | n'))
    by (apply (factored_keeps_prime _ _ _ _ _ p Hf' Hp Hd); lia).
  destruct Hend as [-> | [Hm' Hclean']].
  - apply divide_le in Hpn'; lia.
  - apply IH; auto; lia.
Qed.

(** [factor_slow] on a number with a prime factor beyond the doubles raises
    [OverflowError]. *)
Lemma float_run_raises (fuel : nat) (n p : Z) (st : Primes) :
  reachable st -> n <> 0 -> Z.prime p -> (p | n) ->
  Z.max (last_tested st) (2 ^ 1024) < p ->
  (Z.to_nat (2 ^ 1024) <= fuel)%nat ->
  Binary64.factor_slow_run fuel n st = Raise OverflowError.
Proof.
  intros Hreach Hn Hp Hd Hlt Hfuel. pose proof (Z.prime_ge_2 p Hp) as Hp2.
  pose proof (inv_low st (reachable_inv st Hreach)) as Hlow.
  assert (Hpp : (p | Z.abs n)) by (apply Z.divide_abs_r; assumption).
  destruct (float_run_prefix fuel n st Hreach Hn)
    as [(fs & _ & Hf) | (n2 & fs2 & -> & Hf & Hclean & Hdiv)].
  - apply (factored_keeps_prime _ _ _ _ _ p) in Hf; [|assumption..|lia].
    apply divide_le in Hf; lia.
  - assert (H1024 : 0 < 2 ^ 1024) by (apply Z.pow_pos_nonneg; lia).
    rewrite (float_while_raises (Z.sgn n) (Z.abs n) p fuel
               (length (odd_primes_list st)) n2 fs2 st); auto; lia.
Qed.

(** The loop of [Factorizer], where the product is a parameter, follows the
    loop in doubles: when that one returns, so does the other, with the same
    result, for every parameter that is the product wherever it has a
    value. *)
Lemma float_while_agrees (golden_stop : Z -> Z) (fuel : nat) :
  (forall t s, Binary64.golden_stop t = Done s -> golden_stop t = s) ->
  forall (m : nat) (n : Z) (fs : list factor) (st : Primes) r,
    Binary64.factor_while fuel m n fs st = Done r ->
    factor_while golden_stop fuel m n fs st = Done r.
Proof.
  intros Hg. induction fuel as [|fuel IH]; intros m n fs st r; simpl;
    destruct (1 <? n); try exact (fun H => H).
  destruct (Binary64.golden_stop (last_tested st)) as [s| |] eqn:Hs;
    try discriminate.
  rewrite (Hg _ _ Hs). change (Done s ≫= ?f) with (f s). cbv beta.
  destruct (while_new_primes _ m n fs) as [[[m' n'] fs']| |];
    try exact (fun H => H).
  apply IH.
Qed.

Lemma float_run_agrees (golden_stop : Z -> Z) (fuel : nat) (n : Z)
    (st : Primes) r :
  (forall t s, Binary64.golden_stop t = Done s -> golden_stop t = s) ->
  Binary64.factor_slow_run fuel n st = Done r ->
  factor_slow_run golden_stop fuel n st = Done r.
Proof.
  intros Hg. unfold Binary64.factor_slow_run, factor_slow_run.
  destruct (n =? 0); [exact (fun H => H)|].
  destruct (Z.abs n =? 1); [exact (fun H => H)|].
  destruct (strip_prime 2 _ _) as [[n1 fs1]| |]; try exact (fun H => H).
  simpl. destruct (n1 =? 1); [exact (fun H => H)|].
  destruct (for_odd_primes _ n1 fs1) as [[[b n2] fs2]| |];
    try exact (fun H => H).
  simpl. destruct b; [exact (fun H => H)|].
  destruct (Binary64.factor_while fuel _ n2 fs2 st) as [[[c fs3] st3]| |]
    eqn:Hrun; try discriminate.
  rewrite (float_while_agrees golden_stop fuel Hg _ _ _ _ _ Hrun).
  exact (fun H => H).
Qed.

(** The assumption made on the parameter, that it passes [last_tested], is
    met by a function that is the product in doubles wherever that has a
    value. *)
Lemma golden_stop_total :
  exists golden_stop : Z -> Z,
    (forall t, 9 <= t -> t < golden_stop t)
    /\ (forall t s, Binary64.golden_stop t = Done s -> golden_stop t = s).
Proof.
  exists (fun t => match Binary64.golden_stop t with
                   | Done s => s
                   | _ => t + 1
                   end).
  split.
  - intros t Ht. destruct (Binary64.golden_stop t) as [s| |] eqn:Hs; try lia.
    apply golden_stop_grows in Hs; lia.
  - intros t s ->. reflexivity.
Qed.

(** There are primes above any bound. *)
Lemma fact_divide (n : nat) (k : Z) :
  1 <= k <= Z.of_nat n -> (k | Z.of_nat (fact n)).
Proof.
  induction n as [|n IH]; intros Hk; [lia|].
  change (fact (S n)) with (S n * fact n)%nat. rewrite Nat2Z.inj_mul.
  destruct (Z.eq_dec k (Z.of_nat (S n))) as [->|Hne].
  - apply Z.divide_factor_l.
  - apply Z.divide_mul_r, IH. lia.
Qed.

Lemma primes_unbounded (bound : Z) : exists p, Z.prime p /\ bound < p.
Proof.
  set (f := Z.of_nat (fact (Z.to_nat bound))).
  assert (Hf : 1 <= f) by (unfold f; pose proof (lt_O_fact (Z.to_nat bound)); lia).
  destruct (exists_prime_divisor (f + 1) ltac:(lia)) as (p & Hp & Hd).
  exists p. split; [assumption|].
  destruct (Z_lt_le_dec bound p) as [|Hle]; [assumption|]. exfalso.
  pose proof (Z.prime_ge_2 p Hp).
  assert (Hpf : (p | f)) by (apply fact_divide; lia).
  assert (Hp1 : (p | 1)).
  { replace 1 with (f + 1 - f) by lia. apply Z.divide_sub_r; assumption. }
  apply divide_le in Hp1; lia.
Qed.

(** * Termination of [factor_slow] *)

(** C9, as amended: for every nonzero [n] whose prime factors are all at
    most [2^1023], [factor_slow], with [int(last_tested * phi)] computed in
    doubles as Python does, returns from every reachable state: with fuel
    [|n|] or more the loop that grows the sieve is left with the cofactor
    [c = 1], and [n] is the product of the entries of the list returned,
    times [c]. *)
Theorem factor_slow_terminates (fuel : nat) (n : Z) (st : Primes) :
  reachable st -> n <> 0 ->
  (forall q, Z.prime q -> (q | n) -> q <= 2 ^ 1023) ->
  (Z.to_nat (Z.abs n) <= fuel)%nat ->
  exists c fs st',
    Binary64.factor_slow_run fuel n st = Done (c, Factors fs, st')
    /\ c = 1 /\ n = factors_product fs * c.
Proof.
  intros Hreach Hn Hbound Hfuel.
  destruct (float_run_spec fuel n st Hreach Hn) as [Hpart Htotal].
  destruct (Htotal Hbound Hfuel) as [r Hr].
  destruct (Hpart r Hr) as (fs & st' & -> & Hf & _).
  exists 1, fs, st'. split; [assumption|]. split; [reflexivity|].
  destruct Hf as (pairs & -> & Hs & _).
  apply strip_product in Hs. simpl. rewrite factors_product_pairs. lia.
Qed.

Lemma factor_slow_terminates_witness :
  reachable (sieve 20 initial)
  /\ -997 <> 0
  /\ (forall q, Z.prime q -> (q | -997) -> q <= 2 ^ 1023)
  /\ (Z.to_nat (Z.abs (-997)) <= 997)%nat
  /\ exists c fs st',
       Binary64.factor_slow_run 997 (-997) (sieve 20 initial)
       = Done (c, Factors fs, st')
       /\ c = 1 /\ -997 = factors_product fs * c.
Proof.
  assert (Hn : -997 <> 0) by discriminate.
  assert (Hbound : forall q, Z.prime q -> (q | -997) -> q <= 2 ^ 1023).
  { intros q _ Hd. apply Z.divide_opp_r, divide_le in Hd; [|lia].
    apply Z.le_trans with 997; [exact Hd|]. vm_compute. discriminate. }
  assert (Hfuel : (Z.to_nat (Z.abs (-997)) <= 997)%nat) by (simpl; lia).
  split; [exact reachable_sieve_20|].
  split; [exact Hn|]. split; [exact Hbound|]. split; [exact Hfuel|].
  apply (factor_slow_terminates 997 (-997) (sieve 20 initial)
           reachable_sieve_20 Hn Hbound Hfuel).
Defined.

(** C9, as stated, fails: [factor_slow] does not return for every nonzero
    [n].  There is a prime above [2^1024]; to find it the sieve would have to
    grow beyond the doubles, and [int(last_tested * phi)] raises
    [OverflowError] before. *)
Lemma factor_slow_overflow_counterexample :
  ~ (forall n : Z, n <> 0 ->
       exists fuel fs st',
         Binary64.factor_slow_run fuel n initial = Done (1, Factors fs, st'))
  /\ exists p : Z,
       Z.prime p
       /\ forall fuel, (Z.to_nat (2 ^ 1024) <= fuel)%nat ->
            Binary64.factor_slow_run fuel p initial = Raise OverflowError.
Proof.
  destruct (primes_unbounded (2 ^ 1024)) as (p & Hp & Hlt).
  pose proof (Z.prime_ge_2 p Hp) as Hp2.
  assert (H1024 : 0 < 2 ^ 1024) by (apply Z.pow_pos_nonneg; lia).
  assert (Hmax : Z.max (last_tested initial) (2 ^ 1024) < p)
    by (change (last_tested initial) with 9; lia).
  split.
  - intros Hall. destruct (Hall p ltac:(lia)) as (fuel & fs & st' & Hrun).
    exact (float_run_beyond fuel p p initial reach_initial ltac:(lia) Hp
             (Z.divide_refl p) Hmax _ Hrun).
  - exists p. split; [assumption|]. intros fuel Hfuel.
    exact (float_run_raises fuel p p initial reach_initial ltac:(lia) Hp
             (Z.divide_refl p) Hmax Hfuel).
Qed.

Example factor_slow_float_tests :
  fst <$> Binary64.factor_slow 10 360 (sieve 20 initial)
  = Done (Factors [Unit 1; Power 2 3; Power 3 2; Power 5 1])
  /\ fst <$> Binary64.factor_slow 20 (997 * 997 * 360) (sieve 20 initial)
     = fst <$> factor_slow golden_stop_decimal 20 (997 * 997 * 360)
                 (sieve 20 initial).
Proof. vm_compute. split; reflexivity. Qed.
